(** * Smart Grocery Shopping Assistant, client side

    A shallow embedding of the chat client (the [App] component, the
    [ChatBox] component and the pieces of the browser platform they lean
    on: strings, JSON, [localStorage], React state and effects), and the
    properties of the conversation store, the chat submission flow, the
    expiry check and the grocery synchroniser.

    Conventions of the embedding.
    - A JavaScript string is a Rocq [string] holding the UTF-8 bytes of
      its text.
    - A JavaScript number is an exact decimal [m * 10^e]; rounding to
      binary64, infinities and NaN are outside the model.
    - [try]/[catch] is a [Completion]: [Normal v] or [Throw e].
    - An [async] handler is split where it awaits: the part that runs at
      the click, and the part that runs when the request settles.
    - A React state setter whose new state differs runs the effects that
      list that state; setting a state to the value it already has runs
      nothing. *)

From Stdlib Require Import ZArith NArith Bool Ascii DecimalString Lia.
From Stdlib Require String.
From stdpp Require Import base tactics option list gmap strings.

Local Open Scope Z_scope.
Set Warnings "-register-all".

(* ================================================================== *)
(** * Strings *)
(* ================================================================== *)

Module Str.

Definition code (a : ascii) : N := Ascii.N_of_ascii a.
Definition chr (n : N) : ascii := Ascii.ascii_of_N n.

(** The double quote and the backslash, by code. *)
Definition DQ : ascii := "034"%char.
Definition BS : ascii := "092"%char.
Definition LF : ascii := "010"%char.

Fixpoint rev_append (s acc : string) : string :=
  match s with
  | EmptyString => acc
  | String a r => rev_append r (String a acc)
  end.

Definition rev (s : string) : string := rev_append s "".

Fixpoint repeat (a : ascii) (n : nat) : string :=
  match n with
  | O => ""
  | S k => String a (repeat a k)
  end.

(** ** White space, as [String.prototype.trim] sees it

    WhiteSpace and LineTerminator of ECMAScript: U+0009..U+000D, U+0020,
    U+00A0, U+1680, U+2000..U+200A, U+2028, U+2029, U+202F, U+205F,
    U+3000, U+FEFF, here in their UTF-8 bytes. *)

Definition ws1 (a : N) : bool :=
  ((9 <=? a) && (a <=? 13) || (a =? 32))%N.

Definition ws2 (a b : N) : bool :=
  ((a =? 194) && (b =? 160))%N.

Definition ws3 (a b c : N) : bool :=
  ((a =? 225) && (b =? 154) && (c =? 128)
   || (a =? 226) && (b =? 128)
      && ((128 <=? c) && (c <=? 138) || (c =? 168) || (c =? 169) || (c =? 175))
   || (a =? 226) && (b =? 129) && (c =? 159)
   || (a =? 227) && (b =? 128) && (c =? 128)
   || (a =? 239) && (b =? 187) && (c =? 191))%N.

(** Drops the white space a string starts with. With [mirror] the string
    is read backwards, so that the bytes of a character come last byte
    first. *)
Fixpoint strip (mirror : bool) (s : string) : string :=
  match s with
  | EmptyString => ""
  | String a r1 =>
      if ws1 (code a) then strip mirror r1
      else
        match r1 with
        | EmptyString => s
        | String b r2 =>
            if (if mirror then ws2 (code b) (code a) else ws2 (code a) (code b))
            then strip mirror r2
            else
              match r2 with
              | EmptyString => s
              | String c r3 =>
                  if (if mirror then ws3 (code c) (code b) (code a)
                      else ws3 (code a) (code b) (code c))
                  then strip mirror r3
                  else s
              end
        end
  end.

Definition trimStart (s : string) : string := strip false s.
Definition trimEnd (s : string) : string := rev (strip true (rev s)).
Definition trim (s : string) : string := trimEnd (trimStart s).

(** ToBoolean of a string: the empty string is the only falsy one. *)
Definition truthy (s : string) : bool :=
  match s with
  | EmptyString => false
  | String _ _ => true
  end.

(** [a || b] on strings. *)
Definition or (a b : string) : string := if truthy a then a else b.

(** Decimal digits of an integer, as a template literal renders a number
    that holds that integer (below 10^21 in magnitude, where JavaScript
    switches to the exponent form). *)
Definition of_Z (n : Z) : string := NilZero.string_of_int (Z.to_int n).
Definition of_N (n : N) : string := NilZero.string_of_uint (N.to_uint n).

End Str.

(* ================================================================== *)
(** * JavaScript values *)
(* ================================================================== *)

(** The values a JSON text can denote, and [undefined]. [JNum m e] is the
    number [m * 10^e]; the parser keeps it normal ([m] not a multiple of
    ten, zero as [JNum 0 0]). An object lists its own properties in
    property order. *)
Inductive JsValue : Type :=
| JUndefined
| JNull
| JBool (b : bool)
| JNum (m e : Z)
| JStr (s : string)
| JArr (elems : list JsValue)
| JObj (props : list (string * JsValue)).

(** What a [try] block can leave behind. *)
Inductive Exception : Type :=
| SyntaxError
| QuotaExceededError
| SecurityError
| TypeError.

Inductive Completion (A : Type) : Type :=
| Normal (a : A)
| Throw (e : Exception).
Arguments Normal {A} a.
Arguments Throw {A} e.

(** [try body catch handler]. *)
Definition try_catch {A : Type} (body : Completion A) (handler : Exception → A) : A :=
  match body with
  | Normal a => a
  | Throw e => handler e
  end.

#[global] Instance Completion_bind : MBind Completion := λ A B k c,
  match c with
  | Normal a => k a
  | Throw e => Throw e
  end.

(** [Array.isArray]. *)
Definition isArray (v : JsValue) : bool :=
  match v with
  | JArr _ => true
  | _ => false
  end.

(** [typeof v === "object"]: arrays, objects and [null]. *)
Definition typeof_object (v : JsValue) : bool :=
  match v with
  | JNull | JArr _ | JObj _ => true
  | _ => false
  end.

(** The elements of an array. *)
Definition array_elements (v : JsValue) : list JsValue :=
  match v with
  | JArr elems => elems
  | _ => []
  end.

Definition is_undefined (v : JsValue) : bool :=
  match v with
  | JUndefined => true
  | _ => false
  end.

Definition is_null (v : JsValue) : bool :=
  match v with
  | JNull => true
  | _ => false
  end.

(** ** Number::toString

    The digits [s] of the mantissa, their number [k] and the position
    [n = k + e] of the decimal point decide the form, as in ECMAScript. *)
Definition Number_toString (m e : Z) : string :=
  if m =? 0 then "0"
  else
    let sign := if m <? 0 then "-" else "" in
    let s := Str.of_Z (Z.abs m) in
    let k := Z.of_nat (String.length s) in
    let n := k + e in
    sign +:+
    (if (k <=? n) && (n <=? 21) then
       s +:+ Str.repeat "0"%char (Z.to_nat (n - k))
     else if (0 <? n) && (n <=? 21) then
       String.substring 0 (Z.to_nat n) s +:+ "." +:+
       String.substring (Z.to_nat n) (Z.to_nat (k - n)) s
     else if (-6 <? n) && (n <=? 0) then
       "0." +:+ Str.repeat "0"%char (Z.to_nat (- n)) +:+ s
     else
       let x := (if n - 1 <? 0 then "-" else "+") +:+ Str.of_Z (Z.abs (n - 1)) in
       if k =? 1 then s +:+ "e" +:+ x
       else String.substring 0 1 s +:+ "." +:+
            String.substring 1 (Z.to_nat (k - 1)) s +:+ "e" +:+ x).

(** ** ToString, as a template literal applies it

    An object is converted through its [toString] method. An object read
    from JSON inherits the one of [Object.prototype] unless it has an own
    property of that name, which is never callable: then the conversion
    finds no primitive and throws a [TypeError]. An array joins the
    conversions of its elements, null and undefined as the empty string,
    and throws when one of them throws. *)
Definition own_property (k : string) (props : list (string * JsValue)) : bool :=
  existsb (fun p => String.eqb p.1 k) props.

Fixpoint ToString (v : JsValue) : Completion string :=
  match v with
  | JUndefined => Normal "undefined"
  | JNull => Normal "null"
  | JBool b => Normal (if b then "true" else "false")
  | JNum m e => Normal (Number_toString m e)
  | JStr s => Normal s
  | JArr elems =>
      strings ←
        (fix each (l : list JsValue) : Completion (list string) :=
           match l with
           | [] => Normal []
           | x :: rest =>
               s ← match x with
                   | JUndefined | JNull => Normal ""
                   | _ => ToString x
                   end;
               others ← each rest;
               Normal (s :: others)
           end) elems;
      Normal (String.concat "," strings)
  | JObj props =>
      if own_property "toString" props then Throw TypeError
      else Normal "[object Object]"
  end.

(* ================================================================== *)
(** * JSON.stringify *)
(* ================================================================== *)

Definition hex_digit (n : N) : ascii :=
  if (n <? 10)%N then Str.chr (48 + n) else Str.chr (87 + n).

(** The escape of a code unit below 0x10000: backslash, u, four lower
    case hexadecimal digits. *)
Definition unicode_escape (c : N) : string :=
  String Str.BS (String "u"%char
    (String (hex_digit (c / 4096 mod 16)) (String (hex_digit (c / 256 mod 16))
      (String (hex_digit (c / 16 mod 16)) (String (hex_digit (c mod 16)) ""))))).

(** QuoteJSONString, one character: the two-character escapes, the
    unicode escape for the other control characters, and every other
    byte as it is. A string is modelled as well-formed text, so the
    escape written for a lone surrogate is left out. *)
Definition quote_char (a : ascii) : string :=
  match Str.code a with
  | 8%N => String Str.BS "b"
  | 9%N => String Str.BS "t"
  | 10%N => String Str.BS "n"
  | 12%N => String Str.BS "f"
  | 13%N => String Str.BS "r"
  | 34%N => String Str.BS (String Str.DQ "")
  | 92%N => String Str.BS (String Str.BS "")
  | c => if (c <? 32)%N then unicode_escape c else String a ""
  end.

Fixpoint quote_chars (s : string) : string :=
  match s with
  | EmptyString => ""
  | String a r => quote_char a +:+ quote_chars r
  end.

Definition QuoteJSONString (s : string) : string :=
  String Str.DQ (quote_chars s +:+ String Str.DQ "").

(** The text of an array or object from the texts of its members: on one
    line without a gap, one member a line with one. [stepback] is the
    indentation of the enclosing level and [indent] that of the members. *)
Definition wrap (open close : string) (gap stepback indent : string)
    (partial : list string) : string :=
  match partial with
  | [] => open +:+ close
  | _ =>
      match gap with
      | EmptyString => open +:+ String.concat "," partial +:+ close
      | _ =>
          open +:+ String Str.LF indent
          +:+ String.concat ("," +:+ String Str.LF indent) partial
          +:+ String Str.LF stepback +:+ close
      end
  end.

(** SerializeJSONProperty for a value that is not [undefined]. Inside an
    array [undefined] is written as null; a property whose value is
    [undefined] is left out. *)
Fixpoint serialize (gap indent : string) (v : JsValue) {struct v} : string :=
  match v with
  | JUndefined | JNull => "null"
  | JBool b => if b then "true" else "false"
  | JNum m e => Number_toString m e
  | JStr s => QuoteJSONString s
  | JArr elems =>
      wrap "[" "]" gap indent (indent +:+ gap)
        (map (serialize gap (indent +:+ gap)) elems)
  | JObj props =>
      wrap "{" "}" gap indent (indent +:+ gap)
        (flat_map
           (fun p =>
              if is_undefined p.2 then []
              else
                [QuoteJSONString p.1 +:+ ":"
                 +:+ (match gap with EmptyString => "" | _ => " " end)
                 +:+ serialize gap (indent +:+ gap) p.2]) props)
  end.

(** [JSON.stringify(v)] and [JSON.stringify(v, null, 2)]: [None] is the
    result [undefined]. *)
Definition JSON_stringify_gap (gap : string) (v : JsValue) : option string :=
  match v with
  | JUndefined => None
  | _ => Some (serialize gap "" v)
  end.

Definition JSON_stringify (v : JsValue) : option string := JSON_stringify_gap "" v.

Definition JSON_stringify_2 (v : JsValue) : option string := JSON_stringify_gap "  " v.

(** A value where a string is expected: [undefined] becomes its name. *)
Definition string_or_undefined (o : option string) : string :=
  match o with
  | Some s => s
  | None => "undefined"
  end.

(* ================================================================== *)
(** * JSON.parse *)
(* ================================================================== *)

(** JSON white space: tab, line feed, carriage return, space. *)
Definition json_ws (a : ascii) : bool :=
  let c := Str.code a in
  ((c =? 9) || (c =? 10) || (c =? 13) || (c =? 32))%N.

Fixpoint skip_ws (s : string) : string :=
  match s with
  | EmptyString => ""
  | String a r => if json_ws a then skip_ws r else s
  end.

(** The rest of [s] after the literal [lit], if [s] starts with it. *)
Fixpoint expect (lit s : string) : option string :=
  match lit with
  | EmptyString => Some s
  | String a l =>
      match s with
      | EmptyString => None
      | String b r => if Ascii.eqb a b then expect l r else None
      end
  end.

(** ** Strings *)

Definition hex_val (a : ascii) : option N :=
  let c := Str.code a in
  if ((48 <=? c) && (c <=? 57))%N then Some (c - 48)%N
  else if ((97 <=? c) && (c <=? 102))%N then Some (c - 87)%N
  else if ((65 <=? c) && (c <=? 70))%N then Some (c - 55)%N
  else None.

Definition hex4_val (a b c d : ascii) : option N :=
  x ← hex_val a; y ← hex_val b; z ← hex_val c; w ← hex_val d;
  Some (x * 4096 + y * 256 + z * 16 + w)%N.

(** What a string literal is read into: a byte of the text, or the code
    unit of a unicode escape that two escapes may still have to join. *)
Inductive StrItem : Type :=
| Lit (a : ascii)
| Unit (u : N).

Definition escaped (u : N) : StrItem :=
  if (u <? 128)%N then Lit (Str.chr u) else Unit u.

(** The code unit of a two-character escape: quote, backslash, slash, b,
    f, n, r, t. *)
Definition simple_escape (x : ascii) : option N :=
  match Str.code x with
  | 34%N => Some 34%N
  | 92%N => Some 92%N
  | 47%N => Some 47%N
  | 98%N => Some 8%N
  | 102%N => Some 12%N
  | 110%N => Some 10%N
  | 114%N => Some 13%N
  | 116%N => Some 9%N
  | _ => None
  end.

(** The characters of a string literal after its opening quote, up to and
    without the closing one. A control character, an unknown escape or the
    end of the text before the closing quote is a syntax error. *)
Fixpoint parse_chars (s : string) : option (list StrItem * string) :=
  match s with
  | EmptyString => None
  | String a r =>
      if Ascii.eqb a Str.DQ then Some ([], r)
      else if Ascii.eqb a Str.BS then
        match r with
        | EmptyString => None
        | String x r1 =>
            match simple_escape x with
            | Some u =>
                '(items, rest) ← parse_chars r1; Some (escaped u :: items, rest)
            | None =>
                if Ascii.eqb x "u"%char then
                  match r1 with
                  | String h1 (String h2 (String h3 (String h4 r2))) =>
                      u ← hex4_val h1 h2 h3 h4;
                      '(items, rest) ← parse_chars r2;
                      Some (escaped u :: items, rest)
                  | _ => None
                  end
                else None
            end
        end
      else if (Str.code a <? 32)%N then None
      else '(items, rest) ← parse_chars r; Some (Lit a :: items, rest)
  end.

(** UTF-8 of a code point; a lone surrogate is written with three bytes
    like any other code point below 0x10000. *)
Definition utf8 (cp : N) : string :=
  (if cp <? 128 then String (Str.chr cp) ""
   else if cp <? 2048 then
     String (Str.chr (192 + cp / 64)) (String (Str.chr (128 + cp mod 64)) "")
   else if cp <? 65536 then
     String (Str.chr (224 + cp / 4096))
       (String (Str.chr (128 + cp / 64 mod 64)) (String (Str.chr (128 + cp mod 64)) ""))
   else
     String (Str.chr (240 + cp / 262144))
       (String (Str.chr (128 + cp / 4096 mod 64))
          (String (Str.chr (128 + cp / 64 mod 64)) (String (Str.chr (128 + cp mod 64)) ""))))%N.

Definition high_surrogate (u : N) : bool := ((55296 <=? u) && (u <=? 56319))%N.
Definition low_surrogate (u : N) : bool := ((56320 <=? u) && (u <=? 57343))%N.

(** The text of the items: a high surrogate followed by a low one is one
    code point. *)
Fixpoint decode_items (l : list StrItem) : string :=
  match l with
  | [] => ""
  | Lit a :: r => String a (decode_items r)
  | Unit h :: r =>
      match r with
      | Unit lo :: r' =>
          if high_surrogate h && low_surrogate lo
          then utf8 (65536 + (h - 55296) * 1024 + (lo - 56320))%N +:+ decode_items r'
          else utf8 h +:+ decode_items r
      | _ => utf8 h +:+ decode_items r
      end
  end.

Definition parse_string (s : string) : option (string * string) :=
  '(items, rest) ← parse_chars s; Some (decode_items items, rest).

(** ** Numbers *)

Definition is_digit (a : ascii) : bool :=
  let c := Str.code a in ((48 <=? c) && (c <=? 57))%N.

Fixpoint span_digits (s : string) : list Z * string :=
  match s with
  | EmptyString => ([], "")
  | String a r =>
      if is_digit a then
        let '(ds, rest) := span_digits r in (Z.of_N (Str.code a) - 48 :: ds, rest)
      else ([], s)
  end.

Definition digits_value (ds : list Z) : Z :=
  fold_left (fun acc d => 10 * acc + d) ds 0.

Fixpoint strip_zeros (fuel : nat) (m e : Z) : Z * Z :=
  match fuel with
  | O => (m, e)
  | S f => if Z.rem m 10 =? 0 then strip_zeros f (Z.quot m 10) (e + 1) else (m, e)
  end.

(** The number [m * 10^e], [m] written with [digits] digits. *)
Definition normal_number (m e : Z) (digits : nat) : JsValue :=
  if m =? 0 then JNum 0 0
  else let '(m', e') := strip_zeros digits m e in JNum m' e'.

(** [-? int frac? exp?], the integer part with no leading zero. *)
Definition parse_number (s : string) : option (JsValue * string) :=
  let '(neg, s1) :=
    match s with
    | String "-"%char r => (true, r)
    | _ => (false, s)
    end in
  let '(ip, s2) := span_digits s1 in
  match ip with
  | [] => None
  | 0 :: _ :: _ => None
  | _ =>
      '(fp, s3) ←
        match s2 with
        | String "."%char r =>
            let '(ds, rest) := span_digits r in
            match ds with
            | [] => None
            | _ => Some (ds, rest)
            end
        | _ => Some ([], s2)
        end;
      '(x, s4) ←
        match s3 with
        | String c r =>
            if Ascii.eqb c "e"%char || Ascii.eqb c "E"%char then
              let '(sgn, r1) :=
                match r with
                | String "-"%char t => (-1, t)
                | String "+"%char t => (1, t)
                | _ => (1, r)
                end in
              let '(ds, rest) := span_digits r1 in
              match ds with
              | [] => None
              | _ => Some (sgn * digits_value ds, rest)
              end
            else Some (0, s3)
        | EmptyString => Some (0, s3)
        end;
      let m := digits_value (ip ++ fp) in
      Some (normal_number (if neg : bool then - m else m)
              (x - Z.of_nat (length fp)) (length (ip ++ fp)), s4)
  end.

(** ** Objects: property order

    An array index is a canonical decimal below 2^32 - 1. The keys that
    are array indices come first, in ascending order, then the other
    keys in the order they were first defined. *)
Definition array_index (k : string) : option Z :=
  match span_digits k with
  | (ds, EmptyString) =>
      match ds with
      | [] => None
      | 0 :: _ :: _ => None
      | _ => let n := digits_value ds in if n <? 4294967295 then Some n else None
      end
  | _ => None
  end.

Definition has_key (k : string) (props : list (string * JsValue)) : bool :=
  existsb (fun p => String.eqb p.1 k) props.

Fixpoint replace_key (k : string) (v : JsValue) (props : list (string * JsValue))
    : list (string * JsValue) :=
  match props with
  | [] => []
  | p :: rest =>
      if String.eqb p.1 k then (k, v) :: rest else p :: replace_key k v rest
  end.

Fixpoint insert_index (i : Z) (k : string) (v : JsValue)
    (props : list (string * JsValue)) : list (string * JsValue) :=
  match props with
  | [] => [(k, v)]
  | p :: rest =>
      match array_index p.1 with
      | Some j => if j <? i then p :: insert_index i k v rest else (k, v) :: props
      | None => (k, v) :: props
      end
  end.

(** CreateDataProperty on the object read so far: a key seen again keeps
    its place and takes the later value. *)
Definition define_property (props : list (string * JsValue)) (k : string) (v : JsValue)
    : list (string * JsValue) :=
  if has_key k props then replace_key k v props
  else
    match array_index k with
    | Some i => insert_index i k v props
    | None => props ++ [(k, v)]
    end.

(** ** Values

    Recursive descent; [fuel] bounds the nesting and the number of members
    read, and the length of the text is always enough of it. The result is
    the value and the text left after it. *)
Fixpoint parse_value (fuel : nat) (s : string) : option (JsValue * string) :=
  match fuel with
  | O => None
  | S fuel' =>
      match skip_ws s with
      | EmptyString => None
      | String a r =>
          if Ascii.eqb a "n"%char then rest ← expect "ull" r; Some (JNull, rest)
          else if Ascii.eqb a "t"%char then rest ← expect "rue" r; Some (JBool true, rest)
          else if Ascii.eqb a "f"%char then rest ← expect "alse" r; Some (JBool false, rest)
          else if Ascii.eqb a Str.DQ then
            '(str, rest) ← parse_string r; Some (JStr str, rest)
          else if Ascii.eqb a "["%char then
            match skip_ws r with
            | String c rest =>
                if Ascii.eqb c "]"%char then Some (JArr [], rest)
                else parse_elements fuel' r []
            | EmptyString => parse_elements fuel' r []
            end
          else if Ascii.eqb a "{"%char then
            match skip_ws r with
            | String c rest =>
                if Ascii.eqb c "}"%char then Some (JObj [], rest)
                else parse_members fuel' r []
            | EmptyString => parse_members fuel' r []
            end
          else parse_number (String a r)
      end
  end
with parse_elements (fuel : nat) (s : string) (acc : list JsValue)
    : option (JsValue * string) :=
  match fuel with
  | O => None
  | S fuel' =>
      '(v, r) ← parse_value fuel' s;
      match skip_ws r with
      | String c rest =>
          if Ascii.eqb c ","%char then parse_elements fuel' rest (v :: acc)
          else if Ascii.eqb c "]"%char then Some (JArr (rev (v :: acc)), rest)
          else None
      | EmptyString => None
      end
  end
with parse_members (fuel : nat) (s : string) (acc : list (string * JsValue))
    : option (JsValue * string) :=
  match fuel with
  | O => None
  | S fuel' =>
      match skip_ws s with
      | String q r =>
          if Ascii.eqb q Str.DQ then
            '(k, r1) ← parse_string r;
            match skip_ws r1 with
            | String c r2 =>
                if Ascii.eqb c ":"%char then
                  '(v, r3) ← parse_value fuel' r2;
                  let acc' := define_property acc k v in
                  match skip_ws r3 with
                  | String d rest =>
                      if Ascii.eqb d ","%char then parse_members fuel' rest acc'
                      else if Ascii.eqb d "}"%char then Some (JObj acc', rest)
                      else None
                  | EmptyString => None
                  end
                else None
            | EmptyString => None
            end
          else None
      | EmptyString => None
      end
  end.

(** [JSON.parse(text)]: one value, white space around it, nothing else. *)
Definition JSON_parse (text : string) : Completion JsValue :=
  match parse_value (S (String.length text)) text with
  | Some (v, rest) =>
      match skip_ws rest with
      | EmptyString => Normal v
      | _ => Throw SyntaxError
      end
  | None => Throw SyntaxError
  end.

(* ================================================================== *)
(** * localStorage *)
(* ================================================================== *)

(** The key-value store of the browser: its entries, whether the page is
    denied access to it, and how many bytes it may hold. *)
Record Storage : Type := mkStorage {
  entries : gmap string string;
  denied : bool;
  quota : nat
}.

Definition stored_size (m : gmap string string) : nat :=
  map_fold (fun k v n => String.length k + String.length v + n)%nat 0%nat m.

(** [localStorage.getItem(k)]: [None] is [null]. *)
Definition getItem (ls : Storage) (k : string) : Completion (option string) :=
  if denied ls then Throw SecurityError else Normal (entries ls !! k).

(** [localStorage.setItem(k, v)]. *)
Definition setItem (ls : Storage) (k v : string) : Completion Storage :=
  if denied ls then Throw SecurityError
  else
    let m := <[k := v]> (entries ls) in
    if (stored_size m <=? quota ls)%nat
    then Normal (mkStorage m (denied ls) (quota ls))
    else Throw QuotaExceededError.

(* ================================================================== *)
(** * The data of the application *)
(* ================================================================== *)

Inductive Role : Type := user | ai.

Record ChatMessage : Type := mkChatMessage {
  role : Role;
  content : string;
  reminders : option (list string)
}.

Definition Role_string (r : Role) : string :=
  match r with
  | user => "user"
  | ai => "ai"
  end.

(** The object a [ChatMessage] literal evaluates to: [reminders] is an own
    property only where the literal gives it. *)
Definition object_of (m : ChatMessage) : JsValue :=
  JObj ([("role", JStr (Role_string (role m))); ("content", JStr (content m))]
        ++ match reminders m with
           | Some r => [("reminders", JArr (map JStr r))]
           | None => []
           end).

Module Grocery.

Record GroceryItemEntry : Type := mkEntry {
  item : string;
  expires : string
}.

Record GroceryRecord : Type := mkRecord {
  id : Z;
  items : list GroceryItemEntry;
  prompt : option string;
  timestamp : option string;
  name : string;
  qty : Z;
  expiry : string
}.

End Grocery.

(** Modelled from the spec: the body of a successful POST /items, which
    the source leaves untyped, when it is a value whose properties can be
    read (not null, not undefined): an optional message string and an
    optional integer count. [Received] below adds the bodies that are null
    or undefined. *)
Module ItemsResponse.

Record t : Type := mk {
  message : option string;
  count : option Z
}.

End ItemsResponse.

(** Modelled from the spec: the error a failed request rejects with, which
    the source leaves untyped, when the body of its response is a value
    whose properties can be read (not null, not undefined). It has a
    response when the server answered (status, status text, and a body
    whose error field is optional; a string body has none), a request when
    one was sent, and a description. [Raw] below adds the responses whose
    body is null or undefined, on which reading the error field throws. *)
Module AxiosError.

Record Body : Type := mkBody {
  error : option string
}.

Record Response : Type := mkResponse {
  status : Z;
  statusText : string;
  data : Body
}.

Record t : Type := mk {
  response : option Response;
  request : bool;
  message : string
}.

End AxiosError.

(** A promise settles one way or the other. *)
Inductive Settled (A E : Type) : Type :=
| Fulfilled (a : A)
| Rejected (e : E).
Arguments Fulfilled {A E} a.
Arguments Rejected {A E} e.

Inductive Request : Type :=
| PostItems (prompt : string)
| GetItems
| GetExpiry.

Definition is_PostItems (r : Request) : bool :=
  match r with PostItems _ => true | _ => false end.
Definition is_GetItems (r : Request) : bool :=
  match r with GetItems => true | _ => false end.
Definition is_GetExpiry (r : Request) : bool :=
  match r with GetExpiry => true | _ => false end.

(** The state of [App] and of [ChatBox], the browser storage, the requests
    still awaited and every request issued so far. *)
Record AppState : Type := mkApp {
  conversation : list JsValue;
  isLoading : bool;
  groceryList : list Grocery.GroceryRecord;
  triggerFetch : bool;
  question : string;
  localStorage : Storage;
  inflight : list Request;
  sent : list Request
}.

Definition STORAGE_KEY : string := "chat_history".

(* ================================================================== *)
(** * The conversation store *)
(* ================================================================== *)

Definition readHistory (ls : Storage) : list JsValue :=
  try_catch
    (raw ← getItem ls STORAGE_KEY;
     match raw with
     | None => Normal []
     | Some raw =>
         if negb (Str.truthy raw) then Normal []
         else
           parsed ← JSON_parse raw;
           Normal (match parsed with
                   | JArr elems => elems
                   | _ => []
                   end)
     end)
    (fun e => []).

Definition writeHistory (history : list JsValue) (ls : Storage) : Storage :=
  try_catch
    (setItem ls STORAGE_KEY (string_or_undefined (JSON_stringify (JArr history))))
    (fun e => ls).

(** ** State setters and the effects they run *)

Definition set_conversation (c : list JsValue) (st : AppState) : AppState :=
  mkApp c (isLoading st) (groceryList st) (triggerFetch st) (question st)
    (localStorage st) (inflight st) (sent st).

Definition set_localStorage (ls : Storage) (st : AppState) : AppState :=
  mkApp (conversation st) (isLoading st) (groceryList st) (triggerFetch st)
    (question st) ls (inflight st) (sent st).

Definition set_inflight (l : list Request) (st : AppState) : AppState :=
  mkApp (conversation st) (isLoading st) (groceryList st) (triggerFetch st)
    (question st) (localStorage st) l (sent st).

Definition setIsLoading (b : bool) (st : AppState) : AppState :=
  mkApp (conversation st) b (groceryList st) (triggerFetch st) (question st)
    (localStorage st) (inflight st) (sent st).

Definition setGroceryList (g : list Grocery.GroceryRecord) (st : AppState) : AppState :=
  mkApp (conversation st) (isLoading st) g (triggerFetch st) (question st)
    (localStorage st) (inflight st) (sent st).

Definition setQuestion (q : string) (st : AppState) : AppState :=
  mkApp (conversation st) (isLoading st) (groceryList st) (triggerFetch st) q
    (localStorage st) (inflight st) (sent st).

(** Issuing a request: it is awaited from now on. *)
Definition send (r : Request) (st : AppState) : AppState :=
  mkApp (conversation st) (isLoading st) (groceryList st) (triggerFetch st)
    (question st) (localStorage st) (inflight st ++ [r]) (sent st ++ [r]).

(** The effect on [conversation]: an empty conversation is not written. *)
Definition persist_effect (st : AppState) : AppState :=
  match conversation st with
  | [] => st
  | _ => set_localStorage (writeHistory (conversation st) (localStorage st)) st
  end.

(** [setConversation]: both callers hand over a fresh array, so the
    effect on [conversation] runs after it. *)
Definition setConversation (f : list JsValue → list JsValue) (st : AppState) : AppState :=
  persist_effect (set_conversation (f (conversation st)) st).

(** The effect on [triggerFetch]: [fetchGroceryList] up to its await. *)
Definition fetch_effect (st : AppState) : AppState := send GetItems st.

(** [fetchGroceryList] from its await on. *)
Definition fetchGroceryList_settled
    (o : Settled (list Grocery.GroceryRecord) unit) (st : AppState) : AppState :=
  match o with
  | Fulfilled items_data => setGroceryList items_data st
  | Rejected _ => st
  end.

(** [setTriggerFetch]: a value equal to the current one changes no state
    and so runs no effect. *)
Definition setTriggerFetch (v : bool) (st : AppState) : AppState :=
  if Bool.eqb v (triggerFetch st) then st
  else
    fetch_effect
      (mkApp (conversation st) (isLoading st) (groceryList st) v (question st)
         (localStorage st) (inflight st) (sent st)).

Definition handleUserMessage (message : string) (st : AppState) : AppState :=
  setConversation
    (fun prev => prev ++ [object_of (mkChatMessage user message None)]) st.

Definition handleAiMessage (message : string) (reminders : option (list string))
    (st : AppState) : AppState :=
  setConversation
    (fun prev =>
       prev ++ [object_of (mkChatMessage ai message
                             (Some (match reminders with
                                    | Some r => r
                                    | None => []
                                    end)))]) st.

(** The first render of [App] over a storage, and its effects: the history
    read from the storage replaces the conversation when it is not empty,
    and the grocery list is fetched. *)
Definition mount (ls : Storage) : AppState :=
  let st := mkApp [] false [] false "" ls [] [] in
  let history := readHistory ls in
  let st := fetch_effect st in
  match history with
  | [] => st
  | _ => setConversation (fun _ => history) st
  end.

(* ================================================================== *)
(** * The expiry check *)
(* ================================================================== *)

Definition LFLF : string := String Str.LF (String Str.LF "").

(** The items of a listing, one bullet each; the first conversion that
    throws ends it. *)
Fixpoint bullets (items : list JsValue) : Completion (list string) :=
  match items with
  | [] => Normal []
  | item :: rest =>
      s ← ToString item;
      others ← bullets rest;
      Normal (("• " +:+ s) :: others)
  end.

(** The [try] block of [handleCheckExpiries] from the response on: the
    message, or what the block throws. *)
Definition expiryMessage_try (expiryData : JsValue) : Completion string :=
  if isArray expiryData && (0 <? length (array_elements expiryData))%nat then
    lines ← bullets (array_elements expiryData);
    Normal ("Expiring items:" +:+ LFLF +:+ String.concat (String Str.LF "") lines)
  else if typeof_object expiryData && negb (is_null expiryData) then
    Normal ("Expiring items:" +:+ LFLF
            +:+ string_or_undefined (JSON_stringify_2 expiryData))
  else Normal "Great news! No items are expiring soon.".

(** The text of the assistant message that [handleCheckExpiries] appends
    for the data of a response: the message of the [try] block, or the
    text of the [catch] block when the [try] block throws. *)
Definition expiryMessage (expiryData : JsValue) : string :=
  try_catch (expiryMessage_try expiryData)
    (fun error => "Error fetching expiry items. Please try again.").

Definition handleCheckExpiries (st : AppState) : AppState :=
  send GetExpiry
    (handleUserMessage "Show me a list of all expiring items in the next 7 days." st).

Definition handleCheckExpiries_settled (o : Settled JsValue unit) (st : AppState)
    : AppState :=
  match o with
  | Fulfilled expiryData => handleAiMessage (expiryMessage expiryData) None st
  | Rejected _ => handleAiMessage "Error fetching expiry items. Please try again." None st
  end.

(* ================================================================== *)
(** * The chat submission ([ChatBox]) *)
(* ================================================================== *)

(** ToBoolean of a string that may be [undefined]. *)
Definition option_truthy (a : option string) : bool :=
  match a with
  | Some s => Str.truthy s
  | None => false
  end.

(** [a || b] where [a] may be [undefined]. *)
Definition string_or (a : option string) (b : string) : string :=
  match a with
  | Some s => Str.or s b
  | None => b
  end.

Definition number_or (a : option Z) (b : Z) : Z :=
  match a with
  | Some n => if n =? 0 then b else n
  | None => b
  end.

(** ** An integer as the number that holds it

    A count arrives as a binary64. Below 2^53 in magnitude the number is
    the integer and its text is the decimal of the integer. From there on
    the number is the integer rounded to 53 bits (ties to even), infinite
    from 2^1024, and its text has the fewest digits that still denote
    that number, in the exponent form from 10^21. *)
Definition to_binary64 (c : Z) : Z :=
  if c <=? 0 then 0
  else
    let bits := Z.log2 c + 1 in
    if bits <=? 53 then c
    else
      let sh := bits - 53 in
      let q := Z.shiftr c sh in
      let r := c - Z.shiftl q sh in
      let half := Z.shiftl 1 (sh - 1) in
      Z.shiftl (if (half <? r) || ((r =? half) && Z.odd q) then q + 1 else q) sh.

(** The decimal with [k] digits nearest to [V] that denotes [V], if one
    does; [V] has [N] digits. *)
Definition digits_for (V : Z) (N k : nat) : option Z :=
  let unit := 10 ^ Z.of_nat (N - k) in
  let lo := V / unit * unit in
  let hi := lo + unit in
  let lo_ok := to_binary64 lo =? V in
  let hi_ok := to_binary64 hi =? V in
  if lo_ok && hi_ok then Some (if V - lo <=? hi - V then lo else hi)
  else if lo_ok then Some lo
  else if hi_ok then Some hi
  else None.

Fixpoint shortest_from (V : Z) (N : nat) (k fuel : nat) : Z :=
  match fuel with
  | O => V
  | S fuel' =>
      match digits_for V N k with
      | Some c => c
      | None => shortest_from V N (S k) fuel'
      end
  end.

Definition integer_toString (n : Z) : string :=
  if Z.abs n <? 2 ^ 53 then Str.of_Z n
  else
    let V := to_binary64 (Z.abs n) in
    let sign := if n <? 0 then "-" else "" in
    if 2 ^ 1024 <=? V then sign +:+ "Infinity"
    else
      let N := String.length (Str.of_Z V) in
      let c := shortest_from V N 1 N in
      let '(s, e) := strip_zeros N c 0 in
      sign +:+ Number_toString s e.

(** The content of the reply to a fulfilled request, from a body that can
    be read. *)
Definition aiContent (data : ItemsResponse.t) : string :=
  string_or (ItemsResponse.message data)
    ("Successfully added "
     +:+ integer_toString (number_or (ItemsResponse.count data) 0)
     +:+ " items.").

(** The text the [catch] block computes from a failure whose response
    body, if there is a response, can be read. [errorMessage_raw] below
    is the block on every failure, with the read of [data.error] that
    throws on a body that is null or undefined. *)
Definition errorMessage (error : AxiosError.t) : string :=
  match AxiosError.response error with
  | Some response =>
      let status := AxiosError.status response in
      let data := AxiosError.data response in
      if status =? 429 then
        "API Quota Error (429): Your daily/minute limit has been reached. Please wait."
      else if option_truthy (AxiosError.error data) then
        "Server Error (" +:+ integer_toString status +:+ "): "
        +:+ string_or_undefined (AxiosError.error data)
      else
        "HTTP Error " +:+ integer_toString status +:+ ": "
        +:+ AxiosError.statusText response
  | None =>
      if AxiosError.request error then "Network Error: The server did not respond."
      else AxiosError.message error
  end.

(** [handleSendClick] up to its await. *)
Definition handleSendClick (st : AppState) : AppState :=
  if negb (Str.truthy (Str.trim (question st))) || isLoading st then st
  else
    let message := Str.trim (question st) in
    let st := setIsLoading true st in
    let st := handleUserMessage message st in
    let st := setQuestion "" st in
    send (PostItems message) st.

(** [handleSendClick] from its await on: the [try] or the [catch] branch,
    then the [finally] block. *)
Definition handleSendClick_settled
    (o : Settled ItemsResponse.t AxiosError.t) (st : AppState) : AppState :=
  let st :=
    match o with
    | Fulfilled response_data => handleAiMessage (aiContent response_data) None st
    | Rejected error => handleAiMessage ("Error: " +:+ errorMessage error) None st
    end in
  let st := setIsLoading false st in
  setTriggerFetch true st.

(* ================================================================== *)
(** * The chat submission on every body *)
(* ================================================================== *)

(** A body as it reaches the handler: null, undefined, or a value whose
    properties can be read. *)
Inductive Received (A : Type) : Type :=
| ReceivedNull
| ReceivedUndefined
| ReceivedValue (a : A).
Arguments ReceivedNull {A}.
Arguments ReceivedUndefined {A}.
Arguments ReceivedValue {A} a.

(** The description of the [TypeError] that reading the property [p] of
    null or undefined throws, in the words of V8. *)
Definition TypeError_message {A : Type} (body : Received A) (p : string) : string :=
  "Cannot read properties of "
  +:+ match body with
      | ReceivedNull => "null"
      | _ => "undefined"
      end
  +:+ " (reading '" +:+ p +:+ "')".

Module Raw.

Record Response : Type := mkResponse {
  status : Z;
  statusText : string;
  data : Received AxiosError.Body
}.

Record Error : Type := mk {
  response : option Response;
  request : bool;
  message : string
}.

End Raw.

(** The text the [catch] block computes, or what the block throws:
    reading [data.error] of a body that is null or undefined throws. *)
Definition errorMessage_raw (error : Raw.Error) : Completion string :=
  match Raw.response error with
  | Some response =>
      let status := Raw.status response in
      if status =? 429 then
        Normal "API Quota Error (429): Your daily/minute limit has been reached. Please wait."
      else
        match Raw.data response with
        | ReceivedValue data =>
            Normal
              (errorMessage
                 (AxiosError.mk
                    (Some (AxiosError.mkResponse status (Raw.statusText response) data))
                    (Raw.request error) (Raw.message error)))
        | _ => Throw TypeError
        end
  | None =>
      Normal (if Raw.request error then "Network Error: The server did not respond."
              else Raw.message error)
  end.

(** The content of the assistant message that a settled submission
    appends, if it appends one. A fulfilled request whose body is null or
    undefined throws in the [try] block, and the [catch] block reports
    the description of that error. A [catch] block that throws appends
    nothing. *)
Definition resumed_content
    (o : Settled (Received ItemsResponse.t) Raw.Error) : option string :=
  match o with
  | Fulfilled (ReceivedValue response_data) => Some (aiContent response_data)
  | Fulfilled body => Some ("Error: " +:+ TypeError_message body "message")
  | Rejected error =>
      match errorMessage_raw error with
      | Normal errorMessage => Some ("Error: " +:+ errorMessage)
      | Throw _ => None
      end
  end.

(** [handleSendClick] from its await on, on every outcome: the [try] or
    the [catch] branch, then the [finally] block, which runs also when the
    [catch] block throws. *)
Definition handleSendClick_resumed
    (o : Settled (Received ItemsResponse.t) Raw.Error) (st : AppState) : AppState :=
  let st :=
    match resumed_content o with
    | Some content => handleAiMessage content None st
    | None => st
    end in
  let st := setIsLoading false st in
  setTriggerFetch true st.

(** The outcomes whose bodies can be read, among all outcomes. *)
Definition raw_error (error : AxiosError.t) : Raw.Error :=
  Raw.mk
    (match AxiosError.response error with
     | Some response =>
         Some (Raw.mkResponse (AxiosError.status response)
                 (AxiosError.statusText response)
                 (ReceivedValue (AxiosError.data response)))
     | None => None
     end)
    (AxiosError.request error) (AxiosError.message error).

Definition raw_outcome (o : Settled ItemsResponse.t AxiosError.t)
    : Settled (Received ItemsResponse.t) Raw.Error :=
  match o with
  | Fulfilled response_data => Fulfilled (ReceivedValue response_data)
  | Rejected error => Rejected (raw_error error)
  end.

(* ================================================================== *)
(** * The application as a transition system *)
(* ================================================================== *)

Inductive Event : Type :=
| Change (value : string)
| SendClick
| PostSettled (o : Settled ItemsResponse.t AxiosError.t)
| CheckExpiriesClick
| ExpirySettled (o : Settled JsValue unit)
| ItemsSettled (o : Settled (list Grocery.GroceryRecord) unit).

(** The awaited requests without the first one that [p] accepts. *)
Fixpoint take_request (p : Request → bool) (l : list Request) : option (list Request) :=
  match l with
  | [] => None
  | r :: rest =>
      if p r then Some rest
      else rest' ← take_request p rest; Some (r :: rest')
  end.

Definition settle (p : Request → bool) (st : AppState) : option AppState :=
  l ← take_request p (inflight st); Some (set_inflight l st).

(** One event. The text area is disabled while loading; a request settles
    only while it is awaited. *)
Definition step (ev : Event) (st : AppState) : option AppState :=
  match ev with
  | Change value => if isLoading st then None else Some (setQuestion value st)
  | SendClick => Some (handleSendClick st)
  | PostSettled o =>
      st' ← settle is_PostItems st; Some (handleSendClick_settled o st')
  | CheckExpiriesClick => Some (handleCheckExpiries st)
  | ExpirySettled o =>
      st' ← settle is_GetExpiry st; Some (handleCheckExpiries_settled o st')
  | ItemsSettled o =>
      st' ← settle is_GetItems st; Some (fetchGroceryList_settled o st')
  end.

Fixpoint run (evs : list Event) (st : AppState) : option AppState :=
  match evs with
  | [] => Some st
  | ev :: rest => st' ← step ev st; run rest st'
  end.

(** The states the application can be in: it starts on a storage without
    entries, takes events, and may be loaded again over the storage it
    left behind; the storage key may be cleared from outside. *)
Definition clear_history (st : AppState) : AppState :=
  set_localStorage
    (mkStorage (delete STORAGE_KEY (entries (localStorage st)))
       (denied (localStorage st)) (quota (localStorage st))) st.

Inductive reachable : AppState → Prop :=
| reach_first (d : bool) (q : nat) : reachable (mount (mkStorage ∅ d q))
| reach_step (ev : Event) (st st' : AppState) :
    reachable st → step ev st = Some st' → reachable st'
| reach_reload (st : AppState) : reachable st → reachable (mount (localStorage st))
| reach_cleared (st : AppState) : reachable st → reachable (clear_history st).

(* ================================================================== *)
(** * Values that survive JSON *)
(* ================================================================== *)

(** Keys no two of which are equal and none of which is an array index:
    an object with such keys is read back in the order it was written. *)
Fixpoint fresh_keys (seen : list string) (ks : list string) : bool :=
  match ks with
  | [] => true
  | k :: rest =>
      negb (existsb (fun k' => String.eqb k' k) seen)
      && match array_index k with Some _ => false | None => true end
      && fresh_keys (seen ++ [k]) rest
  end.

(** Strings, booleans, null, and arrays and objects of these. *)
Fixpoint plain (v : JsValue) : bool :=
  match v with
  | JUndefined | JNum _ _ => false
  | JNull | JBool _ | JStr _ => true
  | JArr elems => forallb plain elems
  | JObj props => forallb (fun p => plain p.2) props && fresh_keys [] (map fst props)
  end.

(** The text of [JSON.stringify] without a gap. *)
Definition ser (v : JsValue) : string := serialize "" "" v.

Definition member (p : string * JsValue) : string :=
  QuoteJSONString p.1 +:+ ":" +:+ ser p.2.

(* ================================================================== *)
(** * Lemmas on strings *)
(* ================================================================== *)

#[local] Arguments String.append !_ _ / : simpl nomatch.

Lemma append_assoc (a b c : string) : (a +:+ b) +:+ c = a +:+ (b +:+ c).
Proof. induction a as [|x a IH]; simpl; [done | by f_equal]. Qed.

Lemma append_nil_r (a : string) : a +:+ "" = a.
Proof. induction a as [|x a IH]; simpl; [done | by f_equal]. Qed.

Lemma length_append (a b : string) :
  String.length (a +:+ b) = (String.length a + String.length b)%nat.
Proof. induction a as [|x a IH]; simpl; [done | by f_equal]. Qed.

(** ** Quoting and reading a string *)

Lemma parse_chars_quote_char (a : ascii) (r : string) :
  parse_chars (quote_char a +:+ r)
  = '(items, rest) ← parse_chars r; Some (Lit a :: items, rest).
Proof. destruct a as [[] [] [] [] [] [] [] []]; reflexivity. Qed.

Lemma parse_chars_quote_chars (s rest : string) :
  parse_chars (quote_chars s +:+ String Str.DQ rest)
  = Some (map Lit (String.list_ascii_of_string s), rest).
Proof.
  induction s as [|a s IH]; [reflexivity|].
  cbn [quote_chars]. rewrite append_assoc, parse_chars_quote_char, IH.
  reflexivity.
Qed.

Lemma decode_items_Lit (s : string) :
  decode_items (map Lit (String.list_ascii_of_string s)) = s.
Proof. induction s as [|a s IH]; simpl; [done | by rewrite IH]. Qed.

Lemma parse_string_quote (s rest : string) :
  parse_string (quote_chars s +:+ String Str.DQ rest) = Some (s, rest).
Proof.
  unfold parse_string. rewrite parse_chars_quote_chars. simpl.
  by rewrite decode_items_Lit.
Qed.

(** ** The text of arrays and objects *)

Lemma ser_JArr (l : list JsValue) :
  ser (JArr l) = "[" +:+ String.concat "," (map ser l) +:+ "]".
Proof. destruct l; reflexivity. Qed.

Lemma members_plain (props : list (string * JsValue)) :
  forallb (fun p => plain p.2) props = true →
  flat_map
    (fun p => if is_undefined p.2 then []
              else [QuoteJSONString p.1 +:+ ":" +:+ "" +:+ serialize "" "" p.2])
    props
  = map member props.
Proof.
  induction props as [|[k v] props IH]; [done|].
  cbn [forallb]. intros [Hv Hp]%andb_prop.
  cbn [flat_map map]. rewrite IH by done.
  destruct v; try discriminate; reflexivity.
Qed.

Lemma ser_JObj (props : list (string * JsValue)) :
  forallb (fun p => plain p.2) props = true →
  ser (JObj props) = "{" +:+ String.concat "," (map member props) +:+ "}".
Proof.
  intros H. unfold ser.
  change (serialize "" "" (JObj props))
    with (wrap "{" "}" "" "" ""
            (flat_map
               (fun p => if is_undefined p.2 then []
                         else [QuoteJSONString p.1 +:+ ":" +:+ ""
                               +:+ serialize "" "" p.2]) props)).
  rewrite (members_plain props H). by destruct (map member props).
Qed.

Lemma length_concat_cons (sep x y : string) (l : list string) :
  String.length (String.concat sep (x :: y :: l))
  = (String.length x + String.length sep
     + String.length (String.concat sep (y :: l)))%nat.
Proof.
  change (String.concat sep (x :: y :: l))
    with (x +:+ sep +:+ String.concat sep (y :: l)).
  rewrite !length_append. lia.
Qed.

(** ** The character a value starts with *)

Definition opens_value (a : ascii) : bool :=
  let c := Str.code a in
  ((c =? 110) || (c =? 116) || (c =? 102) || (c =? 34) || (c =? 91) || (c =? 123))%N.

Lemma ser_head (v : JsValue) :
  plain v = true → ∃ a r, ser v = String a r ∧ opens_value a = true.
Proof.
  destruct v as [| |b|m e|s|l|props]; try discriminate; intros H.
  - by eexists _, _.
  - destruct b; by eexists _, _.
  - by eexists _, _.
  - rewrite ser_JArr. by eexists _, _.
  - simpl in H. apply andb_prop in H as [H _]. rewrite ser_JObj by done.
    by eexists _, _.
Qed.

Lemma skip_ws_opens (a : ascii) (r : string) :
  opens_value a = true → skip_ws (String a r) = String a r.
Proof. destruct a as [[] [] [] [] [] [] [] []]; try discriminate; reflexivity. Qed.

Lemma parse_value_array (f : nat) (r : string) :
  parse_value (S f) (String "["%char r)
  = match skip_ws r with
    | String c rest =>
        if Ascii.eqb c "]"%char then Some (JArr [], rest) else parse_elements f r []
    | EmptyString => parse_elements f r []
    end.
Proof. reflexivity. Qed.

Lemma parse_value_object (f : nat) (r : string) :
  parse_value (S f) (String "{"%char r)
  = match skip_ws r with
    | String c rest =>
        if Ascii.eqb c "}"%char then Some (JObj [], rest) else parse_members f r []
    | EmptyString => parse_members f r []
    end.
Proof. reflexivity. Qed.

Lemma parse_value_string (f : nat) (r : string) :
  parse_value (S f) (String Str.DQ r)
  = '(str, rest) ← parse_string r; Some (JStr str, rest).
Proof. reflexivity. Qed.

Lemma parse_elements_S (f : nat) (s : string) (acc : list JsValue) :
  parse_elements (S f) s acc
  = '(v, r) ← parse_value f s;
    match skip_ws r with
    | String c rest =>
        if Ascii.eqb c ","%char then parse_elements f rest (v :: acc)
        else if Ascii.eqb c "]"%char then Some (JArr (rev (v :: acc)), rest)
        else None
    | EmptyString => None
    end.
Proof. reflexivity. Qed.

Lemma parse_members_S (f : nat) (r : string) (acc : list (string * JsValue)) :
  parse_members (S f) (String Str.DQ r) acc
  = '(k, r1) ← parse_string r;
    match skip_ws r1 with
    | String c r2 =>
        if Ascii.eqb c ":"%char then
          '(v, r3) ← parse_value f r2;
          match skip_ws r3 with
          | String d rest =>
              if Ascii.eqb d ","%char then parse_members f rest (define_property acc k v)
              else if Ascii.eqb d "}"%char then Some (JObj (define_property acc k v), rest)
              else None
          | EmptyString => None
          end
        else None
    | EmptyString => None
    end.
Proof. reflexivity. Qed.

(** ** Reading back what was written *)

Section RoundTrip.

(** What holds of the values whose text is shorter than [F]. *)
Variable F : nat.
Hypothesis parse_below :
  ∀ (f : nat) (v : JsValue) (rest : string),
    (f < F)%nat → plain v = true → (String.length (ser v) ≤ f)%nat →
    parse_value f (ser v +:+ rest) = Some (v, rest).

Lemma parse_elements_ser (l : list JsValue) :
  ∀ (f : nat) (acc : list JsValue) (rest : string),
    l ≠ [] → (f < F)%nat → forallb plain l = true →
    (String.length (String.concat "," (map ser l)) < f)%nat →
    parse_elements f (String.concat "," (map ser l) +:+ String "]"%char rest) acc
    = Some (JArr (rev acc ++ l), rest).
Proof using parse_below.
  induction l as [|v l IHl]; [done|].
  intros f acc rest _ HfF [Hv Hl]%andb_prop Hlen.
  destruct f as [|f]; [lia|]. rewrite parse_elements_S.
  destruct l as [|v' l].
  - simpl in *. rewrite parse_below by (done || lia). reflexivity.
  - cbn [map] in Hlen. rewrite length_concat_cons in Hlen.
    change (String.concat "," (map ser (v :: v' :: l)))
      with (ser v +:+ "," +:+ String.concat "," (map ser (v' :: l))).
    rewrite !append_assoc. rewrite parse_below by (done || lia).
    simpl. rewrite IHl by (done || simpl in *; lia).
    simpl. by rewrite <- app_assoc.
Qed.

Lemma parse_members_ser (props : list (string * JsValue)) :
  ∀ (f : nat) (acc : list (string * JsValue)) (rest : string),
    props ≠ [] → (f < F)%nat → forallb (fun p => plain p.2) props = true →
    (String.length (String.concat "," (map member props)) < f)%nat →
    parse_members f (String.concat "," (map member props) +:+ String "}"%char rest) acc
    = Some (JObj (fold_left (fun a p => define_property a p.1 p.2) props acc), rest).
Proof using parse_below.
  induction props as [|[k v] props IHp]; [done|].
  intros f acc rest _ HfF [Hv Hp]%andb_prop Hlen.
  destruct f as [|f]; [lia|].
  assert (Hmem : ∀ tail, member (k, v) +:+ tail
            = String Str.DQ (quote_chars k +:+ String Str.DQ (":" +:+ ser v +:+ tail))).
  { intros tail. unfold member, QuoteJSONString. simpl.
    by rewrite !append_assoc. }
  assert (Hk : (String.length (ser v) < String.length (member (k, v)))%nat).
  { unfold member, QuoteJSONString. simpl. rewrite !length_append. simpl. lia. }
  destruct props as [|p' props].
  - change (String.concat "," (map member [(k, v)])) with (member (k, v)) in *.
    rewrite Hmem, parse_members_S, parse_string_quote.
    simpl. rewrite parse_below by (done || lia). reflexivity.
  - set (C := String.concat "," (map member (p' :: props))) in *.
    change (String.concat "," (map member ((k, v) :: p' :: props)))
      with (member (k, v) +:+ "," +:+ C) in *.
    rewrite !length_append in Hlen. change (String.length ",") with 1%nat in Hlen.
    rewrite append_assoc, Hmem, parse_members_S, parse_string_quote.
    simpl. rewrite ?append_assoc. rewrite parse_below by (done || lia).
    simpl. rewrite IHp by (done || lia). reflexivity.
Qed.

End RoundTrip.

Lemma has_key_map (k : string) (props : list (string * JsValue)) :
  has_key k props = existsb (fun k' => String.eqb k' k) (map fst props).
Proof.
  unfold has_key. induction props as [|p props IH]; [done|].
  simpl. by rewrite IH.
Qed.

Lemma define_fresh (props acc : list (string * JsValue)) :
  fresh_keys (map fst acc) (map fst props) = true →
  fold_left (fun a p => define_property a p.1 p.2) props acc = acc ++ props.
Proof.
  revert acc. induction props as [|[k v] props IH]; intros acc H.
  - by rewrite app_nil_r.
  - cbn [map fst fresh_keys] in H.
    apply andb_prop in H as [[Hnew Hidx]%andb_prop Hrest].
    cbn [fold_left fst snd]. unfold define_property at 2.
    rewrite has_key_map. apply negb_true_iff in Hnew. rewrite Hnew.
    destruct (array_index k); [discriminate|].
    rewrite IH.
    + by rewrite <- app_assoc.
    + by rewrite map_app.
Qed.

Lemma concat_ser_head (v : JsValue) (l : list JsValue) (tail : string) :
  plain v = true →
  ∃ a r, String.concat "," (map ser (v :: l)) +:+ tail = String a r
         ∧ opens_value a = true.
Proof.
  intros Hv. destruct (ser_head v Hv) as (a & r & E & Ha).
  destruct l as [|v' l].
  - exists a, (r +:+ tail). simpl. by rewrite E.
  - exists a, (r +:+ "," +:+ String.concat "," (map ser (v' :: l)) +:+ tail).
    change (String.concat "," (map ser (v :: v' :: l)))
      with (ser v +:+ "," +:+ String.concat "," (map ser (v' :: l))).
    rewrite E. simpl. by rewrite !append_assoc.
Qed.

Lemma concat_member_head (p : string * JsValue) (l : list (string * JsValue))
    (tail : string) :
  ∃ r, String.concat "," (map member (p :: l)) +:+ tail = String Str.DQ r.
Proof.
  destruct l as [|p' l].
  - by eexists.
  - change (String.concat "," (map member (p :: p' :: l)))
      with (member p +:+ "," +:+ String.concat "," (map member (p' :: l))).
    by eexists.
Qed.

(** A value without numbers is read back from its text, whatever follows
    the text, with fuel for the length of the text. *)
Lemma parse_value_ser :
  ∀ (F : nat) (v : JsValue) (rest : string),
    plain v = true → (String.length (ser v) ≤ F)%nat →
    parse_value F (ser v +:+ rest) = Some (v, rest).
Proof.
  induction F as [F IH] using lt_wf_ind. intros v rest Hv Hlen.
  destruct F as [|f].
  { destruct (ser_head v Hv) as (a & r & E & _). rewrite E in Hlen.
    simpl in Hlen. lia. }
  destruct v as [| |b|m e|s|l|props]; try discriminate.
  - reflexivity.
  - destruct b; reflexivity.
  - unfold ser. cbn [serialize]. unfold QuoteJSONString.
    change (String Str.DQ (quote_chars s +:+ String Str.DQ "") +:+ rest)
      with (String Str.DQ ((quote_chars s +:+ String Str.DQ "") +:+ rest)).
    rewrite append_assoc, parse_value_string.
    change (String Str.DQ "" +:+ rest) with (String Str.DQ rest).
    by rewrite parse_string_quote.
  - rewrite ser_JArr in *.
    change (("[" +:+ String.concat "," (map ser l) +:+ "]") +:+ rest)
      with (String "["%char ((String.concat "," (map ser l) +:+ "]") +:+ rest)).
    rewrite append_assoc, parse_value_array.
    change ("]" +:+ rest) with (String "]"%char rest).
    change (String.length ("[" +:+ String.concat "," (map ser l) +:+ "]"))
      with (S (String.length (String.concat "," (map ser l) +:+ "]"))) in Hlen.
    rewrite length_append in Hlen. simpl in Hv.
    destruct l as [|v l]; [reflexivity|].
    transitivity
      (parse_elements f
         (String.concat "," (map ser (v :: l)) +:+ String "]"%char rest) []).
    + apply andb_prop in Hv as [Hv _].
      destruct (concat_ser_head v l (String "]"%char rest) Hv) as (a & r & E & Ha).
      rewrite E, skip_ws_opens by done.
      destruct a as [[] [] [] [] [] [] [] []]; try discriminate; reflexivity.
    + apply (parse_elements_ser (S f)); [|done|lia|done|simpl in *; lia].
      intros f' v' rest' Hf'. apply IH. lia.
  - simpl in Hv. apply andb_prop in Hv as [Hp Hk].
    rewrite ser_JObj in * by done.
    change (("{" +:+ String.concat "," (map member props) +:+ "}") +:+ rest)
      with (String "{"%char ((String.concat "," (map member props) +:+ "}") +:+ rest)).
    rewrite append_assoc, parse_value_object.
    change ("}" +:+ rest) with (String "}"%char rest).
    change (String.length ("{" +:+ String.concat "," (map member props) +:+ "}"))
      with (S (String.length (String.concat "," (map member props) +:+ "}"))) in Hlen.
    rewrite length_append in Hlen.
    destruct props as [|p props]; [reflexivity|].
    transitivity
      (parse_members f
         (String.concat "," (map member (p :: props)) +:+ String "}"%char rest) []).
    + destruct (concat_member_head p props (String "}"%char rest)) as (r & E).
      rewrite E. reflexivity.
    + rewrite (parse_members_ser (S f)); [|intros; apply IH; (done || lia)|done|lia|done|simpl in *; lia].
      by rewrite (define_fresh (p :: props) []).
Qed.

(** [JSON.parse(JSON.stringify(v))] is [v] for such a value. *)
Lemma JSON_parse_ser (v : JsValue) :
  plain v = true → JSON_parse (ser v) = Normal v.
Proof.
  intros Hv. unfold JSON_parse.
  rewrite <- (append_nil_r (ser v)) at 2.
  rewrite parse_value_ser by (done || lia). reflexivity.
Qed.

(* ================================================================== *)
(** * The conversation store: lemmas *)
(* ================================================================== *)

Lemma plain_strings (r : list string) : forallb plain (map JStr r) = true.
Proof. induction r as [|s r IH]; [done | exact IH]. Qed.

Lemma plain_object_of (m : ChatMessage) : plain (object_of m) = true.
Proof.
  destruct m as [r c [rem|]]; unfold object_of; cbn [reminders role content app].
  - cbn [plain forallb snd]. rewrite plain_strings. reflexivity.
  - reflexivity.
Qed.

Lemma plain_conversation (msgs : list ChatMessage) :
  plain (JArr (map object_of msgs)) = true.
Proof.
  cbn [plain]. induction msgs as [|m msgs IH]; [done|].
  cbn [map forallb]. by rewrite plain_object_of, IH.
Qed.

Lemma JSON_stringify_array (h : list JsValue) :
  string_or_undefined (JSON_stringify (JArr h)) = ser (JArr h).
Proof. reflexivity. Qed.

(** A history found in the storage as it was written is read back. *)
Lemma readHistory_stored (ls : Storage) (h : list JsValue) :
  plain (JArr h) = true → denied ls = false →
  entries ls !! STORAGE_KEY = Some (ser (JArr h)) →
  readHistory ls = h.
Proof.
  intros Hp Hd He.
  assert (Ht : Str.truthy (ser (JArr h)) = true) by by rewrite ser_JArr.
  unfold readHistory, getItem. rewrite Hd. simpl. rewrite He, Ht. simpl.
  by rewrite JSON_parse_ser.
Qed.

(** What [writeHistory] leaves in the storage: on success the text of the
    history under the key, otherwise what was there. *)
Lemma writeHistory_cases (h : list JsValue) (ls : Storage) :
  writeHistory h ls = ls
  ∨ (denied ls = false
     ∧ writeHistory h ls
       = mkStorage (<[STORAGE_KEY := ser (JArr h)]> (entries ls)) false (quota ls)).
Proof.
  unfold writeHistory, setItem. rewrite JSON_stringify_array.
  destruct (denied ls) eqn:Hd; [by left|].
  destruct (_ <=? _)%nat; [right | left]; done.
Qed.

(* ================================================================== *)
(** * The conversation store: persist and load *)
(* ================================================================== *)

(** C4. Round trip of the conversation store. For every sequence of chat
    messages, when the storage accepts the write of [writeHistory], the
    storage it leaves is the one [setItem] returned, and [readHistory] on
    that storage yields the sequence that was written. *)
Theorem persist_load_roundtrip (msgs : list ChatMessage) (ls ls' : Storage) :
  setItem ls STORAGE_KEY
    (string_or_undefined (JSON_stringify (JArr (map object_of msgs)))) = Normal ls' →
  writeHistory (map object_of msgs) ls = ls'
  ∧ readHistory ls' = map object_of msgs.
Proof.
  intros Hset. split.
  - unfold writeHistory. by rewrite Hset.
  - rewrite JSON_stringify_array in Hset. unfold setItem in Hset.
    destruct (denied ls) eqn:Hd; [discriminate|].
    destruct (_ <=? _)%nat; [|discriminate].
    injection Hset as <-.
    apply readHistory_stored; [apply plain_conversation | reflexivity |].
    apply lookup_insert_eq.
Qed.

Lemma persist_load_roundtrip_witness :
  let msgs := [mkChatMessage user "2 litres of milk" None;
               mkChatMessage ai "Added milk" (Some [])] in
  let ls := mkStorage ∅ false 4096 in
  let ls' := mkStorage
               (<[STORAGE_KEY := ser (JArr (map object_of msgs))]> ∅) false 4096 in
  writeHistory (map object_of msgs) ls = ls'
  ∧ readHistory ls' = map object_of msgs.
Proof.
  intros msgs ls ls'.
  apply (persist_load_roundtrip msgs ls ls'). vm_compute. reflexivity.
Defined.

(** C5. Loading fails soft. Whatever the storage holds, [readHistory]
    returns a list: the empty one when the storage cannot be read, when the
    key is missing, when the stored text is not JSON, and when it is JSON
    but not an array; a history that is not empty is the array that the
    stored text denotes. *)
Theorem load_fails_soft (ls : Storage) :
  (∀ e, getItem ls STORAGE_KEY = Throw e → readHistory ls = [])
  ∧ (entries ls !! STORAGE_KEY = None → readHistory ls = [])
  ∧ (∀ raw e, entries ls !! STORAGE_KEY = Some raw →
       JSON_parse raw = Throw e → readHistory ls = [])
  ∧ (∀ raw v, entries ls !! STORAGE_KEY = Some raw →
       JSON_parse raw = Normal v → isArray v = false → readHistory ls = [])
  ∧ (readHistory ls ≠ [] →
       ∃ raw, getItem ls STORAGE_KEY = Normal (Some raw)
              ∧ JSON_parse raw = Normal (JArr (readHistory ls))).
Proof.
  unfold readHistory, getItem. repeat split.
  - intros e H. by destruct (denied ls).
  - intros H. destruct (denied ls); [done|]. simpl. by rewrite H.
  - intros raw e H Hp. destruct (denied ls); [done|]. simpl. rewrite H.
    destruct (Str.truthy raw); [|done]. simpl. by rewrite Hp.
  - intros raw v H Hp Hv. destruct (denied ls); [done|]. simpl. rewrite H.
    destruct (Str.truthy raw); [|done]. simpl. rewrite Hp. simpl.
    by destruct v.
  - destruct (denied ls); [done|]. simpl.
    destruct (entries ls !! STORAGE_KEY) as [raw|]; [|done].
    destruct (Str.truthy raw); [|done]. simpl.
    destruct (JSON_parse raw) as [v|e] eqn:Hp; [|done]. simpl.
    destruct v; try done. intros _. by exists raw.
Qed.

Lemma load_fails_soft_witness :
  let ls := mkStorage (<[STORAGE_KEY := "{not json"]> ∅) false 4096 in
  readHistory ls = [].
Proof.
  intros ls.
  apply (proj1 (proj2 (proj2 (load_fails_soft ls))) "{not json" SyntaxError);
    vm_compute; reflexivity.
Defined.

(* ================================================================== *)
(** * The handlers, field by field *)
(* ================================================================== *)

Lemma setConversation_append (x : JsValue) (st : AppState) :
  setConversation (fun prev => prev ++ [x]) st
  = set_localStorage (writeHistory (conversation st ++ [x]) (localStorage st))
      (set_conversation (conversation st ++ [x]) st).
Proof.
  unfold setConversation, persist_effect. simpl.
  by destruct (conversation st).
Qed.

Lemma handleUserMessage_eq (message : string) (st : AppState) :
  let x := object_of (mkChatMessage user message None) in
  handleUserMessage message st
  = set_localStorage (writeHistory (conversation st ++ [x]) (localStorage st))
      (set_conversation (conversation st ++ [x]) st).
Proof. apply setConversation_append. Qed.

Lemma handleAiMessage_eq (message : string) (r : option (list string)) (st : AppState) :
  let x := object_of (mkChatMessage ai message
                        (Some (match r with Some l => l | None => [] end))) in
  handleAiMessage message r st
  = set_localStorage (writeHistory (conversation st ++ [x]) (localStorage st))
      (set_conversation (conversation st ++ [x]) st).
Proof. apply setConversation_append. Qed.

(** The text of the assistant message a settled submission appends. *)
Definition settled_content (o : Settled ItemsResponse.t AxiosError.t) : string :=
  match o with
  | Fulfilled response_data => aiContent response_data
  | Rejected error => "Error: " +:+ errorMessage error
  end.

Lemma handleSendClick_settled_eq
    (o : Settled ItemsResponse.t AxiosError.t) (st : AppState) :
  let x := object_of (mkChatMessage ai (settled_content o) (Some [])) in
  handleSendClick_settled o st
  = setTriggerFetch true
      (setIsLoading false
         (set_localStorage (writeHistory (conversation st ++ [x]) (localStorage st))
            (set_conversation (conversation st ++ [x]) st))).
Proof.
  unfold handleSendClick_settled. destruct o; by rewrite handleAiMessage_eq.
Qed.

Lemma setTriggerFetch_conversation (v : bool) (st : AppState) :
  conversation (setTriggerFetch v st) = conversation st.
Proof. unfold setTriggerFetch. by destruct (Bool.eqb _ _). Qed.

Lemma setTriggerFetch_isLoading (v : bool) (st : AppState) :
  isLoading (setTriggerFetch v st) = isLoading st.
Proof. unfold setTriggerFetch. by destruct (Bool.eqb _ _). Qed.

Lemma setTriggerFetch_groceryList (v : bool) (st : AppState) :
  groceryList (setTriggerFetch v st) = groceryList st.
Proof. unfold setTriggerFetch. by destruct (Bool.eqb _ _). Qed.

Lemma setTriggerFetch_localStorage (v : bool) (st : AppState) :
  localStorage (setTriggerFetch v st) = localStorage st.
Proof. unfold setTriggerFetch. by destruct (Bool.eqb _ _). Qed.

(** The requests a [setTriggerFetch] issues: one GET /items when the flag
    changes, none when it does not. *)
Lemma setTriggerFetch_sent (v : bool) (st : AppState) :
  sent (setTriggerFetch v st)
  = sent st ++ (if Bool.eqb v (triggerFetch st) then [] else [GetItems]).
Proof.
  unfold setTriggerFetch. destruct (Bool.eqb _ _); simpl; [|done].
  by rewrite app_nil_r.
Qed.

Lemma setTriggerFetch_inflight (v : bool) (st : AppState) :
  inflight (setTriggerFetch v st)
  = inflight st ++ (if Bool.eqb v (triggerFetch st) then [] else [GetItems]).
Proof.
  unfold setTriggerFetch. destruct (Bool.eqb _ _); simpl; [|done].
  by rewrite app_nil_r.
Qed.

Lemma handleSendClick_settled_conversation
    (o : Settled ItemsResponse.t AxiosError.t) (st : AppState) :
  conversation (handleSendClick_settled o st)
  = conversation st ++ [object_of (mkChatMessage ai (settled_content o) (Some []))].
Proof.
  rewrite handleSendClick_settled_eq. by rewrite setTriggerFetch_conversation.
Qed.

(* ================================================================== *)
(** * The chat submission: what is appended *)
(* ================================================================== *)

(** An integer below 2^53 in magnitude is a number of the language, and
    is written as its decimal. *)
Lemma integer_toString_safe (n : Z) :
  Z.abs n < 2 ^ 53 → integer_toString n = Str.of_Z n.
Proof.
  intros H. unfold integer_toString.
  by destruct (Z.ltb_spec (Z.abs n) (2 ^ 53)); [|lia].
Qed.

(** Above it the count text shows the nearest number of the language, in
    exponent form from 10^21 on. *)
Example integer_toString_rounds :
  integer_toString (2 ^ 53 + 1) = "9007199254740992"
  ∧ integer_toString (10 ^ 21) = "1e+21"
  ∧ integer_toString 123456789012345678901234 = "1.2345678901234569e+23"
  ∧ integer_toString (- 2 ^ 64) = "-18446744073709552000".
Proof. repeat split; vm_compute; reflexivity. Qed.

(** On the bodies that can be read, the handler on every outcome is the
    handler on the typed outcomes. *)
Lemma resumed_content_raw (o : Settled ItemsResponse.t AxiosError.t) :
  resumed_content (raw_outcome o) = Some (settled_content o).
Proof.
  destruct o as [data|error]; [done|].
  unfold resumed_content, raw_outcome, raw_error, errorMessage_raw, settled_content,
    errorMessage.
  destruct error as [[[status statusText data]|] request message]; simpl; [|done].
  by destruct (status =? 429).
Qed.

Lemma handleSendClick_resumed_settled
    (o : Settled ItemsResponse.t AxiosError.t) (st : AppState) :
  handleSendClick_resumed (raw_outcome o) st = handleSendClick_settled o st.
Proof.
  unfold handleSendClick_resumed. rewrite resumed_content_raw.
  by destruct o.
Qed.

Lemma handleSendClick_resumed_conversation
    (o : Settled (Received ItemsResponse.t) Raw.Error) (st : AppState) :
  conversation (handleSendClick_resumed o st)
  = conversation st
    ++ match resumed_content o with
       | Some content => [object_of (mkChatMessage ai content (Some []))]
       | None => []
       end.
Proof.
  unfold handleSendClick_resumed. rewrite setTriggerFetch_conversation.
  destruct (resumed_content o) as [content|].
  - by rewrite handleAiMessage_eq.
  - by rewrite app_nil_r.
Qed.

Example success_with_message :
  aiContent (ItemsResponse.mk (Some "Added milk") None) = "Added milk".
Proof. reflexivity. Qed.

Example success_with_count :
  aiContent (ItemsResponse.mk None (Some 3)) = "Successfully added 3 items.".
Proof. reflexivity. Qed.

(** A fulfilled request whose body is null throws at the read of the
    message field, and the handler appends the description of that error. *)
Lemma success_null_body (st : AppState) :
  conversation (handleSendClick_resumed (Fulfilled ReceivedNull) st)
  = conversation st
    ++ [object_of
          (mkChatMessage ai
             "Error: Cannot read properties of null (reading 'message')" (Some []))].
Proof. by rewrite handleSendClick_resumed_conversation. Qed.




(** C9. A message field that is present but empty is not preferred: the
    count text is appended, whatever the count; its number is the decimal
    of a count that is below 2^53 in magnitude, and with the count absent
    or 0 the content is Successfully added 0 items. *)
Theorem empty_message_falls_back (data : ItemsResponse.t) (st : AppState) :
  ItemsResponse.message data = Some "" →
  let n := match ItemsResponse.count data with Some n => n | None => 0 end in
  conversation (handleSendClick_settled (Fulfilled data) st)
  = conversation st
    ++ [object_of
          (mkChatMessage ai
             ("Successfully added " +:+ integer_toString n +:+ " items.") (Some []))]
  ∧ (Z.abs n < 2 ^ 53 →
     conversation (handleSendClick_settled (Fulfilled data) st)
     = conversation st
       ++ [object_of
             (mkChatMessage ai ("Successfully added " +:+ Str.of_Z n +:+ " items.")
                (Some []))])
  ∧ (ItemsResponse.count data = None ∨ ItemsResponse.count data = Some 0 →
     conversation (handleSendClick_settled (Fulfilled data) st)
     = conversation st
       ++ [object_of (mkChatMessage ai "Successfully added 0 items." (Some []))]).
Proof.
  intros Hm n. rewrite handleSendClick_settled_conversation.
  unfold settled_content, aiContent, string_or, number_or. rewrite Hm.
  cbn [Str.or Str.truthy].
  assert (Hc : (match ItemsResponse.count data with
                | Some n => if n =? 0 then 0 else n
                | None => 0
                end) = n).
  { subst n. destruct (ItemsResponse.count data) as [k|]; [|done].
    destruct (Z.eqb_spec k 0); congruence. }
  rewrite Hc. split; [done|]. split.
  - intros Hn. by rewrite (integer_toString_safe n Hn).
  - subst n. by intros [-> | ->].
Qed.

Lemma empty_message_falls_back_witness :
  let data := ItemsResponse.mk (Some "") None in
  let st := mount (mkStorage ∅ false 4096) in
  conversation (handleSendClick_settled (Fulfilled data) st)
  = conversation st
    ++ [object_of (mkChatMessage ai "Successfully added 0 items." (Some []))].
Proof.
  intros data st.
  apply (proj2 (proj2 (empty_message_falls_back data st eq_refl))). left. reflexivity.
Defined.

Example failure_quota :
  errorMessage
    (AxiosError.mk
       (Some (AxiosError.mkResponse 429 "TOO MANY REQUESTS"
                (AxiosError.mkBody (Some "quota exhausted"))))
       true "Request failed with status code 429")
  = "API Quota Error (429): Your daily/minute limit has been reached. Please wait.".
Proof. reflexivity. Qed.

Example failure_server_error :
  errorMessage
    (AxiosError.mk
       (Some (AxiosError.mkResponse 400 "BAD REQUEST"
                (AxiosError.mkBody (Some "could not parse the prompt"))))
       true "Request failed with status code 400")
  = "Server Error (400): could not parse the prompt".
Proof. reflexivity. Qed.

(** A failed request whose response has a status other than 429 and a
    body that is null or undefined: the read of the error field throws
    inside the [catch] block, no message is appended, and the [finally]
    block still runs. *)
Lemma failure_unreadable_body (error : Raw.Error) (response : Raw.Response)
    (st : AppState) :
  Raw.response error = Some response →
  Raw.status response ≠ 429 →
  (∀ body, Raw.data response ≠ ReceivedValue body) →
  let st' := handleSendClick_resumed (Rejected error) st in
  conversation st' = conversation st
  ∧ isLoading st' = false
  ∧ triggerFetch st' = true.
Proof.
  intros Hr Hs Hd st'. subst st'.
  assert (Hc : resumed_content (Rejected error) = None).
  { unfold resumed_content, errorMessage_raw. rewrite Hr.
    destruct (Z.eqb_spec (Raw.status response) 429); [done|].
    destruct (Raw.data response) as [| |body]; [done|done|].
    by destruct (Hd body). }
  rewrite handleSendClick_resumed_conversation, Hc, app_nil_r.
  unfold handleSendClick_resumed. rewrite Hc, setTriggerFetch_isLoading.
  split; [done|]. split; [done|].
  unfold setTriggerFetch. by destruct (Bool.eqb_spec true (triggerFetch (setIsLoading false st))).
Qed.

Example failure_null_body :
  let error :=
    Raw.mk (Some (Raw.mkResponse 500 "INTERNAL SERVER ERROR" ReceivedNull))
      true "Request failed with status code 500" in
  let st := mount (mkStorage ∅ false 4096) in
  conversation (handleSendClick_resumed (Rejected error) st) = conversation st.
Proof. vm_compute. reflexivity. Qed.

(** C2, as stated, fails: a response with status 400 whose body has the
    empty string as its error field has an error field, and the appended
    content is the HTTP error text, not the server error text. *)
Lemma failure_error_field_counterexample :
  let body := AxiosError.mkBody (Some "") in
  let error :=
    AxiosError.mk (Some (AxiosError.mkResponse 400 "BAD REQUEST" body))
      true "Request failed with status code 400" in
  let st := mount (mkStorage ∅ false 4096) in
  ∃ text, AxiosError.error body = Some text
          ∧ conversation (handleSendClick_settled (Rejected error) st)
            = conversation st
              ++ [object_of (mkChatMessage ai "Error: HTTP Error 400: BAD REQUEST"
                               (Some []))]
          ∧ conversation (handleSendClick_settled (Rejected error) st)
            ≠ conversation st
              ++ [object_of
                    (mkChatMessage ai ("Error: Server Error (400): " +:+ text)
                       (Some []))].
Proof.
  exists "". split; [reflexivity|]. split; [reflexivity|].
  vm_compute. discriminate.
Qed.

(** The failures on which the [catch] block completes: no response, a
    response of status 429, or a response whose body can be read. *)
Definition readable (error : Raw.Error) : Prop :=
  match Raw.response error with
  | Some response =>
      Raw.status response = 429 ∨ ∃ body, Raw.data response = ReceivedValue body
  | None => True
  end.

(** C2, amended. For every failed POST /items submission whose response,
    if there is one, has status 429 or a body that can be read (not null,
    not undefined), exactly one assistant message is appended, and its
    content is Error: followed by: the quota text when the response has
    status 429, whatever its body; otherwise, for a status below 2^53 in
    magnitude, Server Error (status): text when the body has an error
    field that is not the empty string, and HTTP Error status: status text
    for any other body; Network Error: The server did not respond. when a
    request was made and no response came; and the description of the
    failure when there is neither. *)
Theorem failure_content (error : Raw.Error) (st : AppState) :
  readable error →
  ∃ content,
    conversation (handleSendClick_resumed (Rejected error) st)
    = conversation st ++ [object_of (mkChatMessage ai content (Some []))]
    ∧ match Raw.response error with
      | Some response =>
          let status := Raw.status response in
          (status = 429 →
           String.prefix "Error: API Quota Error (429)" content = true)
          ∧ (status ≠ 429 → Z.abs status < 2 ^ 53 →
             ∀ body text,
               Raw.data response = ReceivedValue body →
               AxiosError.error body = Some text → text ≠ "" →
               content = "Error: Server Error (" +:+ Str.of_Z status +:+ "): " +:+ text)
          ∧ (status ≠ 429 → Z.abs status < 2 ^ 53 →
             ∀ body,
               Raw.data response = ReceivedValue body →
               AxiosError.error body = None ∨ AxiosError.error body = Some "" →
               content = "Error: HTTP Error " +:+ Str.of_Z status +:+ ": "
                         +:+ Raw.statusText response)
      | None =>
          (Raw.request error = true →
           content = "Error: Network Error: The server did not respond.")
          ∧ (Raw.request error = false →
             content = "Error: " +:+ Raw.message error)
      end.
Proof.
  intros Hr. rewrite handleSendClick_resumed_conversation.
  unfold readable in Hr. unfold resumed_content, errorMessage_raw.
  destruct (Raw.response error) as [response|].
  - cbn zeta. destruct (Z.eqb_spec (Raw.status response) 429) as [E|E].
    + eexists. split; [reflexivity|].
      split; [intros _; reflexivity|]. split; intros; contradiction.
    + destruct Hr as [Hr|[body Hb]]; [contradiction|]. rewrite Hb.
      eexists. split; [reflexivity|].
      split; [intros; contradiction|].
      unfold errorMessage. cbn [AxiosError.response AxiosError.status
        AxiosError.data AxiosError.statusText].
      destruct (Z.eqb_spec (Raw.status response) 429) as [|_]; [contradiction|].
      split.
      * intros _ Hs body' text [= <-] Ht Hne. rewrite Ht, (integer_toString_safe _ Hs).
        destruct text; [done | reflexivity].
      * intros _ Hs body' [= <-] [Ht | Ht]; rewrite Ht, (integer_toString_safe _ Hs);
          reflexivity.
  - eexists. split; [reflexivity|].
    destruct (Raw.request error); split; intros; (done || reflexivity).
Qed.

Lemma failure_content_witness :
  let body := AxiosError.mkBody (Some "could not parse the prompt") in
  let response := Raw.mkResponse 400 "BAD REQUEST" (ReceivedValue body) in
  let error := Raw.mk (Some response) true "Request failed with status code 400" in
  let st := mount (mkStorage ∅ false 4096) in
  ∃ content,
    conversation (handleSendClick_resumed (Rejected error) st)
    = conversation st ++ [object_of (mkChatMessage ai content (Some []))]
    ∧ content = "Error: Server Error (400): could not parse the prompt".
Proof.
  intros body response error st.
  destruct (failure_content error st (or_intror (ex_intro _ body eq_refl)))
    as (content & Hc & _ & Hs & _).
  exists content. split; [exact Hc|].
  apply (Hs ltac:(discriminate) ltac:(reflexivity) body _ eq_refl eq_refl).
  discriminate.
Defined.

(* ================================================================== *)
(** * The transition system: what each handler leaves alone *)
(* ================================================================== *)

(** [setConversation] touches the conversation and the storage only. *)
Lemma setConversation_frame (f : list JsValue → list JsValue) (st : AppState) :
  ∃ ls, setConversation f st
        = mkApp (f (conversation st)) (isLoading st) (groceryList st)
            (triggerFetch st) (question st) ls (inflight st) (sent st).
Proof.
  unfold setConversation, persist_effect. destruct st as [c l g t q ls i s].
  simpl. destruct (f c); by eexists.
Qed.

(** The number of chat submissions awaited. *)
Definition posts (l : list Request) : nat := length (List.filter is_PostItems l).

Lemma posts_app (l l' : list Request) : posts (l ++ l') = (posts l + posts l')%nat.
Proof. unfold posts. by rewrite List.filter_app, length_app. Qed.

Lemma take_request_posts (l l' : list Request) :
  take_request is_PostItems l = Some l' → posts l = S (posts l').
Proof.
  revert l'. induction l as [|r l IH]; intros l' H; [done|].
  simpl in H. destruct (is_PostItems r) eqn:Hr.
  - injection H as <-. unfold posts. simpl. by rewrite Hr.
  - destruct (take_request is_PostItems l) as [l''|]; [|done].
    injection H as <-. unfold posts in *. simpl. rewrite Hr.
    by apply IH.
Qed.

Lemma take_request_other (p : Request → bool) (l l' : list Request) :
  (∀ r, p r = true → is_PostItems r = false) →
  take_request p l = Some l' → posts l' = posts l.
Proof.
  intros Hp. revert l'. induction l as [|r l IH]; intros l' H; [done|].
  simpl in H. destruct (p r) eqn:Hr.
  - injection H as <-. unfold posts. simpl. by rewrite (Hp r Hr).
  - destruct (take_request p l) as [l''|]; [|done].
    injection H as <-. unfold posts in *. simpl.
    destruct (is_PostItems r); simpl; by rewrite (IH l'').
Qed.

(** While a chat submission is awaited, and only then, the loading flag is
    set; so there is never more than one. *)
Definition one_submission (st : AppState) : Prop :=
  posts (inflight st) = if isLoading st then 1%nat else 0%nat.

Lemma mount_one_submission (ls : Storage) : one_submission (mount ls).
Proof.
  unfold mount. destruct (readHistory ls); [reflexivity|].
  unfold one_submission.
  by destruct (setConversation_frame (fun _ => j :: l)
                 (fetch_effect (mkApp [] false [] false "" ls [] []))) as [ls' ->].
Qed.

Lemma handleSendClick_rejects (st : AppState) :
  Str.trim (question st) = "" ∨ isLoading st = true → handleSendClick st = st.
Proof.
  unfold handleSendClick. intros [-> | ->]; [reflexivity|].
  by rewrite orb_true_r.
Qed.

Lemma step_one_submission (ev : Event) (st st' : AppState) :
  one_submission st → step ev st = Some st' → one_submission st'.
Proof.
  unfold one_submission. intros Inv Hstep. destruct ev; simpl in Hstep.
  - destruct (isLoading st) eqn:Hl; [done|]. injection Hstep as <-. simpl.
    by rewrite Hl.
  - injection Hstep as <-. unfold handleSendClick.
    destruct (negb _ || isLoading st) eqn:Hg; [done|].
    apply orb_false_elim in Hg as [_ Hl]. rewrite Hl in Inv.
    unfold handleUserMessage.
    destruct (setConversation_frame
                (fun prev => prev ++ [object_of
                   (mkChatMessage user (Str.trim (question st)) None)])
                (setIsLoading true st)) as [ls ->].
    simpl. rewrite posts_app, Inv. reflexivity.
  - unfold settle in Hstep.
    destruct (take_request is_PostItems (inflight st)) as [l|] eqn:Ht; [|done].
    injection Hstep as <-. apply take_request_posts in Ht.
    rewrite handleSendClick_settled_eq.
    rewrite setTriggerFetch_isLoading, setTriggerFetch_inflight. simpl.
    rewrite posts_app.
    destruct (isLoading st); [|lia].
    assert (posts l = 0%nat) as -> by lia.
    by destruct (triggerFetch st).
  - injection Hstep as <-. unfold handleCheckExpiries, handleUserMessage.
    destruct (setConversation_frame
                (fun prev => prev ++ [object_of
                   (mkChatMessage user
                      "Show me a list of all expiring items in the next 7 days." None)])
                st) as [ls ->].
    simpl. rewrite posts_app, Inv. change (posts [GetExpiry]) with 0%nat. lia.
  - unfold settle in Hstep.
    destruct (take_request is_GetExpiry (inflight st)) as [l|] eqn:Ht; [|done].
    injection Hstep as <-.
    apply take_request_other in Ht; [|by intros []].
    unfold handleCheckExpiries_settled, handleAiMessage.
    destruct o;
      match goal with
      | |- context [setConversation ?f ?s] =>
          destruct (setConversation_frame f s) as [ls ->]
      end; simpl; by rewrite Ht.
  - unfold settle in Hstep.
    destruct (take_request is_GetItems (inflight st)) as [l|] eqn:Ht; [|done].
    injection Hstep as <-.
    apply take_request_other in Ht; [|by intros []].
    destruct o; simpl; by rewrite Ht.
Qed.

Lemma reachable_one_submission (st : AppState) : reachable st → one_submission st.
Proof.
  induction 1 as [d q|ev st st' _ IH Hstep|st _ _|st _ IH].
  - apply mount_one_submission.
  - by apply (step_one_submission ev st).
  - apply mount_one_submission.
  - exact IH.
Qed.

(* ================================================================== *)
(** * The chat submission: the entry guard *)
(* ================================================================== *)

(** C3. The entry guard. A submission whose trimmed input is empty, or
    that is attempted while the loading flag is set, changes nothing: the
    state after it is the state before it, with the same conversation and
    the same requests issued. In every state the application can reach at
    most one chat submission is awaited, and while one is awaited a further
    attempt changes nothing. *)
Theorem submission_guard (st : AppState) :
  (Str.trim (question st) = "" ∨ isLoading st = true → handleSendClick st = st)
  ∧ (reachable st →
     (posts (inflight st) ≤ 1)%nat
     ∧ ((0 < posts (inflight st))%nat → step SendClick st = Some st)).
Proof.
  split; [apply handleSendClick_rejects|].
  intros Hr. apply reachable_one_submission in Hr. unfold one_submission in Hr.
  split.
  - rewrite Hr. destruct (isLoading st); lia.
  - intros Hpos. simpl. f_equal. apply handleSendClick_rejects. right.
    destruct (isLoading st); [done | lia].
Qed.

Example blank_input_rejected :
  let st := setQuestion "   " (mount (mkStorage ∅ false 4096)) in
  handleSendClick st = st.
Proof. reflexivity. Qed.

Lemma submission_guard_witness :
  ∃ st, run [Change "milk"; SendClick] (mount (mkStorage ∅ false 4096)) = Some st
        ∧ isLoading st = true
        ∧ handleSendClick (setQuestion "eggs" st) = setQuestion "eggs" st.
Proof.
  eexists. split; [reflexivity|]. split; [reflexivity|].
  apply (proj1 (submission_guard _)). right. reflexivity.
Defined.

(* ================================================================== *)
(** * The refetch trigger *)
(* ================================================================== *)

(** The requests a settled submission issues: GET /items when the trigger
    was not yet set, nothing when it was. *)
Lemma handleSendClick_settled_sent
    (o : Settled ItemsResponse.t AxiosError.t) (st : AppState) :
  sent (handleSendClick_settled o st)
  = sent st ++ (if triggerFetch st then [] else [GetItems])
  ∧ triggerFetch (handleSendClick_settled o st) = true.
Proof.
  rewrite handleSendClick_settled_eq. unfold setTriggerFetch. simpl.
  destruct (triggerFetch st) eqn:Ht; simpl; [|done]. by rewrite app_nil_r.
Qed.

(** C6, on the code. Two submissions in a row, both answered: the first
    one issues a GET /items when it settles, the second one does not,
    because the trigger is set to true again and so does not change. *)
Theorem second_submission_no_refetch :
  let st0 := mount (mkStorage ∅ false 4096) in
  let added (what : string) :=
    PostSettled (Fulfilled (ItemsResponse.mk (Some what) None)) in
  ∃ st1 st2,
    run [Change "milk"; SendClick; added "Added milk"] st0 = Some st1
    ∧ run [Change "eggs"; SendClick; added "Added eggs"] st1 = Some st2
    ∧ sent st0 = [GetItems]
    ∧ sent st1 = [GetItems; PostItems "milk"; GetItems]
    ∧ sent st2 = [GetItems; PostItems "milk"; GetItems; PostItems "eggs"]
    ∧ triggerFetch st1 = true ∧ triggerFetch st2 = true.
Proof.
  intros st0 added. eexists _, _.
  split; [vm_compute; reflexivity|]. split; [vm_compute; reflexivity|].
  repeat split.
Qed.

(* ================================================================== *)
(** * The expiry check: the reply *)
(* ================================================================== *)

Lemma handleCheckExpiries_settled_conversation (o : Settled JsValue unit) (st : AppState) :
  conversation (handleCheckExpiries_settled o st)
  = conversation st
    ++ [object_of
          (mkChatMessage ai
             (match o with
              | Fulfilled expiryData => expiryMessage expiryData
              | Rejected _ => "Error fetching expiry items. Please try again."
              end)
             (Some []))].
Proof.
  unfold handleCheckExpiries_settled. by destruct o; rewrite handleAiMessage_eq.
Qed.

(** The replies of the expiry check, by the shape of the data. *)
Lemma expiryMessage_cases (expiryData : JsValue) :
  match expiryData with
  | JArr [] => expiryMessage expiryData = "Expiring items:" +:+ LFLF +:+ "[]"
  | JArr elems =>
      expiryMessage expiryData
      = match bullets elems with
        | Normal lines =>
            "Expiring items:" +:+ LFLF +:+ String.concat (String Str.LF "") lines
        | Throw _ => "Error fetching expiry items. Please try again."
        end
  | JObj _ =>
      expiryMessage expiryData
      = "Expiring items:" +:+ LFLF +:+ serialize "  " "" expiryData
  | _ => expiryMessage expiryData = "Great news! No items are expiring soon."
  end.
Proof.
  destruct expiryData as [| |b|m e|s|[|v l]|props]; try reflexivity.
  unfold expiryMessage, expiryMessage_try.
  cbn [isArray array_elements length Nat.ltb Nat.leb andb].
  by destruct (bullets (v :: l)).
Qed.

Example expiry_listing :
  expiryMessage (JArr [JStr "milk (2 days)"; JStr "eggs (5 days)"])
  = "Expiring items:" +:+ LFLF +:+ "• milk (2 days)" +:+ String Str.LF "• eggs (5 days)".
Proof. reflexivity. Qed.

(** An element of the listing that is an object with a toString property
    of its own cannot be written into the template: the property is data,
    so it cannot be called, and the conversion throws; the [catch] block
    answers with the fixed error text. An object without one is written as
    [object Object]. *)
Example expiry_listing_throws :
  expiryMessage (JArr [JStr "milk"; JObj [("toString", JStr "eggs")]])
  = "Error fetching expiry items. Please try again."
  ∧ expiryMessage (JArr [JObj [("item", JStr "eggs")]])
    = "Expiring items:" +:+ LFLF +:+ "• [object Object]".
Proof. split; reflexivity. Qed.

Example expiry_absent :
  expiryMessage JUndefined = "Great news! No items are expiring soon."
  ∧ expiryMessage (JStr "") = "Great news! No items are expiring soon.".
Proof. split; reflexivity. Qed.

(** C7, on the code. An expiry check answered with the empty array
    appends the dump of the empty array, not the message that no items are
    expiring: an empty array is an object that is not null, and the second
    branch takes it. *)
Theorem expiry_empty_array_dump (st : AppState) :
  conversation (handleCheckExpiries_settled (Fulfilled (JArr [])) st)
  = conversation st
    ++ [object_of
          (mkChatMessage ai ("Expiring items:" +:+ LFLF +:+ "[]") (Some []))]
  ∧ expiryMessage (JArr []) ≠ "Great news! No items are expiring soon.".
Proof.
  split; [by rewrite handleCheckExpiries_settled_conversation | discriminate].
Qed.

(* ================================================================== *)
(** * The grocery synchroniser *)
(* ================================================================== *)

Lemma take_request_length (p : Request → bool) (l l' : list Request) :
  take_request p l = Some l' → length l = S (length l').
Proof.
  revert l'. induction l as [|r l IH]; intros l' H; [done|].
  simpl in H. destruct (p r).
  - by injection H as <-.
  - destruct (take_request p l) as [l''|]; [|done].
    injection H as <-. simpl. by rewrite (IH l'').
Qed.

(** Every event but a fulfilled GET /items leaves the grocery list as it
    is. *)
Lemma step_groceryList (ev : Event) (st st' : AppState) :
  step ev st = Some st' →
  groceryList st' = groceryList st
  ∨ ∃ items_data, ev = ItemsSettled (Fulfilled items_data)
                  ∧ groceryList st' = items_data.
Proof.
  intros Hstep. destruct ev; simpl in Hstep.
  - destruct (isLoading st); [done|]. injection Hstep as <-. by left.
  - injection Hstep as <-. left. unfold handleSendClick.
    destruct (negb _ || isLoading st); [done|].
    unfold handleUserMessage.
    by destruct (setConversation_frame
                (fun prev => prev ++ [object_of
                   (mkChatMessage user (Str.trim (question st)) None)])
                (setIsLoading true st)) as [ls ->].
  - unfold settle in Hstep.
    destruct (take_request is_PostItems (inflight st)) as [l|]; [|done].
    injection Hstep as <-. left.
    rewrite handleSendClick_settled_eq. by rewrite setTriggerFetch_groceryList.
  - injection Hstep as <-. left. unfold handleCheckExpiries, handleUserMessage.
    by destruct (setConversation_frame
                (fun prev => prev ++ [object_of
                   (mkChatMessage user
                      "Show me a list of all expiring items in the next 7 days." None)])
                st) as [ls ->].
  - unfold settle in Hstep.
    destruct (take_request is_GetExpiry (inflight st)) as [l|]; [|done].
    injection Hstep as <-. left.
    unfold handleCheckExpiries_settled, handleAiMessage.
    destruct o;
      match goal with
      | |- context [setConversation ?f ?s] =>
          by destruct (setConversation_frame f s) as [ls ->]
      end.
  - unfold settle in Hstep.
    destruct (take_request is_GetItems (inflight st)) as [l|]; [|done].
    injection Hstep as <-. destruct o as [items_data|e]; [right | left].
    + by exists items_data.
    + done.
Qed.

(** C8. A grocery refetch that fails leaves the cached list, the
    conversation and the storage as they were and issues no request: it
    only stops being awaited. And an event after which the cached list
    differs is a fulfilled GET /items, whose data the list then is. *)
Theorem fetch_failure_keeps_list (ev : Event) (st st' : AppState) :
  step ev st = Some st' →
  (∀ e, ev = ItemsSettled (Rejected e) →
     groceryList st' = groceryList st
     ∧ sent st' = sent st
     ∧ length (inflight st) = S (length (inflight st'))
     ∧ conversation st' = conversation st
     ∧ localStorage st' = localStorage st
     ∧ triggerFetch st' = triggerFetch st)
  ∧ (groceryList st' ≠ groceryList st →
     ∃ items_data, ev = ItemsSettled (Fulfilled items_data)
                   ∧ groceryList st' = items_data).
Proof.
  intros Hstep. split.
  - intros e ->. simpl in Hstep. unfold settle in Hstep.
    destruct (take_request is_GetItems (inflight st)) as [l|] eqn:Ht; [|done].
    injection Hstep as <-. simpl.
    by rewrite (take_request_length _ _ _ Ht).
  - intros Hne. by destruct (step_groceryList ev st st' Hstep).
Qed.

(** A state with a cached list and a refetch under way, for the examples:
    the first fetch brought one record, and an answered submission asked
    for the list again. *)
Definition milk : Grocery.GroceryRecord :=
  Grocery.mkRecord 1 [Grocery.mkEntry "milk" "2025-01-10"] (Some "milk") None
    "milk" 1 "2025-01-10".

Definition cached_state : AppState :=
  handleSendClick_settled (Fulfilled (ItemsResponse.mk None (Some 1)))
    (set_inflight []
       (handleSendClick
          (setQuestion "eggs"
             (setGroceryList [milk]
                (set_inflight [] (mount (mkStorage ∅ false 4096))))))).

Example cached_state_run :
  run [ItemsSettled (Fulfilled [milk]); Change "eggs"; SendClick;
       PostSettled (Fulfilled (ItemsResponse.mk None (Some 1)))]
    (mount (mkStorage ∅ false 4096))
  = Some cached_state
  ∧ groceryList cached_state = [milk]
  ∧ inflight cached_state = [GetItems].
Proof. vm_compute. done. Qed.

Lemma fetch_failure_keeps_list_witness :
  ∃ st', step (ItemsSettled (Rejected tt)) cached_state = Some st'
         ∧ groceryList st' = [milk]
         ∧ sent st' = sent cached_state.
Proof.
  assert (H : step (ItemsSettled (Rejected tt)) cached_state
              = Some (set_inflight [] cached_state)) by (vm_compute; reflexivity).
  exists (set_inflight [] cached_state). split; [exact H|].
  destruct (proj1 (fetch_failure_keeps_list _ _ _ H) tt eq_refl) as (Hg & Hs & _).
  split; [rewrite Hg; vm_compute; reflexivity | exact Hs].
Defined.

(* ================================================================== *)
(** * Reminders *)
(* ================================================================== *)

(** An assistant message carries the empty list of reminders. *)
Definition reminders_empty (m : ChatMessage) : Prop :=
  role m = ai → reminders m = Some [].

(** A history of chat messages whose assistant messages all do. *)
Definition good_history (h : list JsValue) : Prop :=
  ∃ msgs, h = map object_of msgs ∧ Forall reminders_empty msgs.

(** The storage holds no history, or the text of such a history. *)
Definition stored_good (ls : Storage) : Prop :=
  entries ls !! STORAGE_KEY = None
  ∨ ∃ h, entries ls !! STORAGE_KEY = Some (ser (JArr h)) ∧ good_history h.

Definition reminders_invariant (st : AppState) : Prop :=
  good_history (conversation st) ∧ stored_good (localStorage st).

Lemma good_history_nil : good_history [].
Proof. by exists []. Qed.

Lemma good_history_snoc (h : list JsValue) (m : ChatMessage) :
  good_history h → reminders_empty m → good_history (h ++ [object_of m]).
Proof.
  intros (msgs & -> & Hall) Hm. exists (msgs ++ [m]). split.
  - by rewrite map_app.
  - apply Forall_app. split; [done | by constructor].
Qed.

Lemma readHistory_good (ls : Storage) : stored_good ls → good_history (readHistory ls).
Proof.
  intros [Hnone | (h & Hsome & Hgood)].
  - unfold readHistory, getItem. destruct (denied ls); [apply good_history_nil|].
    simpl. rewrite Hnone. apply good_history_nil.
  - destruct (denied ls) eqn:Hd.
    + unfold readHistory, getItem. rewrite Hd. apply good_history_nil.
    + rewrite (readHistory_stored ls h); [done| |done|done].
      destruct Hgood as (msgs & -> & _). apply plain_conversation.
Qed.

Lemma writeHistory_good (h : list JsValue) (ls : Storage) :
  good_history h → stored_good ls → stored_good (writeHistory h ls).
Proof.
  intros Hh Hls. destruct (writeHistory_cases h ls) as [-> | [_ ->]]; [done|].
  right. exists h. split; [|done]. simpl. apply lookup_insert_eq.
Qed.

Lemma setConversation_invariant (f : list JsValue → list JsValue) (st : AppState) :
  reminders_invariant st → good_history (f (conversation st)) →
  reminders_invariant (setConversation f st).
Proof.
  intros [_ Hls] Hf. unfold setConversation, persist_effect. simpl.
  destruct (f (conversation st)) eqn:E; split; simpl; try done.
  by apply writeHistory_good.
Qed.

Lemma mount_invariant (ls : Storage) : stored_good ls → reminders_invariant (mount ls).
Proof.
  intros Hls. unfold mount. pose proof (readHistory_good ls Hls) as Hh.
  destruct (readHistory ls) as [|v h] eqn:E.
  - split; [apply good_history_nil | done].
  - apply setConversation_invariant; [|done].
    split; [apply good_history_nil | done].
Qed.

Lemma setTriggerFetch_invariant (v : bool) (st : AppState) :
  reminders_invariant st → reminders_invariant (setTriggerFetch v st).
Proof.
  unfold reminders_invariant.
  by rewrite setTriggerFetch_conversation, setTriggerFetch_localStorage.
Qed.

Lemma step_invariant (ev : Event) (st st' : AppState) :
  reminders_invariant st → step ev st = Some st' → reminders_invariant st'.
Proof.
  intros Inv Hstep. destruct ev; simpl in Hstep.
  - destruct (isLoading st); [done|]. by injection Hstep as <-.
  - injection Hstep as <-. unfold handleSendClick.
    destruct (negb _ || isLoading st); [done|].
    cut (reminders_invariant
           (handleUserMessage (Str.trim (question st)) (setIsLoading true st))).
    { by intros [? ?]. }
    apply setConversation_invariant; [done|].
    apply good_history_snoc; [apply Inv | by intros ?].
  - unfold settle in Hstep.
    destruct (take_request is_PostItems (inflight st)) as [l|]; [|done].
    injection Hstep as <-. unfold handleSendClick_settled.
    apply setTriggerFetch_invariant.
    cut (reminders_invariant
           (handleAiMessage (settled_content o) None (set_inflight l st))).
    { destruct o; by intros [? ?]. }
    apply setConversation_invariant; [done|].
    apply good_history_snoc; [apply Inv | by intros ?].
  - injection Hstep as <-. unfold handleCheckExpiries.
    cut (reminders_invariant
           (handleUserMessage
              "Show me a list of all expiring items in the next 7 days." st)).
    { by intros [? ?]. }
    apply setConversation_invariant; [done|].
    apply good_history_snoc; [apply Inv | by intros ?].
  - unfold settle in Hstep.
    destruct (take_request is_GetExpiry (inflight st)) as [l|]; [|done].
    injection Hstep as <-. unfold handleCheckExpiries_settled.
    destruct o; (apply setConversation_invariant; [done|]);
      (apply good_history_snoc; [apply Inv | by intros ?]).
  - unfold settle in Hstep.
    destruct (take_request is_GetItems (inflight st)) as [l|]; [|done].
    injection Hstep as <-. by destruct o.
Qed.

Lemma reachable_invariant (st : AppState) : reachable st → reminders_invariant st.
Proof.
  induction 1 as [d q|ev st st' _ IH Hstep|st _ IH|st _ IH].
  - apply mount_invariant. by left.
  - by apply (step_invariant ev st).
  - apply mount_invariant, IH.
  - destruct IH as [Hc _]. split; [done|]. left. simpl. apply lookup_delete_eq.
Qed.

(** C10. Every assistant message that a flow appends (a settled chat
    submission, a settled expiry check, [handleAiMessage] called without
    reminders) has the empty list as its reminders; and in every state the
    application can reach the conversation is a list of chat messages in
    which every assistant message has the empty list as its reminders. *)
Theorem assistant_reminders_empty (st : AppState) :
  (∀ o, ∃ c, conversation (handleSendClick_settled o st)
             = conversation st ++ [object_of (mkChatMessage ai c (Some []))])
  ∧ (∀ o, ∃ c, conversation (handleCheckExpiries_settled o st)
               = conversation st ++ [object_of (mkChatMessage ai c (Some []))])
  ∧ (∀ message, conversation (handleAiMessage message None st)
                = conversation st ++ [object_of (mkChatMessage ai message (Some []))])
  ∧ (reachable st →
     ∃ msgs, conversation st = map object_of msgs
             ∧ Forall (fun m => role m = ai → reminders m = Some []) msgs).
Proof.
  repeat split.
  - intros o. eexists. apply handleSendClick_settled_conversation.
  - intros o. eexists. apply handleCheckExpiries_settled_conversation.
  - intros message. by rewrite handleAiMessage_eq.
  - intros Hr. by destruct (reachable_invariant st Hr) as [Hc _].
Qed.

Lemma assistant_reminders_empty_witness :
  ∃ st msgs,
    run [Change "milk"; SendClick;
         PostSettled (Fulfilled (ItemsResponse.mk None (Some 2)))]
      (mount (mkStorage ∅ false 4096)) = Some st
    ∧ conversation st = map object_of msgs
    ∧ Forall (fun m => role m = ai → reminders m = Some []) msgs.
Proof.
  pose (st0 := mount (mkStorage ∅ false 4096)).
  pose (st1 := setQuestion "milk" st0).
  pose (st2 := handleSendClick st1).
  pose (o := Fulfilled (E := AxiosError.t) (ItemsResponse.mk None (Some 2))).
  pose (st3 := handleSendClick_settled o
                 (set_inflight [GetItems] st2)).
  assert (Hr : reachable st3).
  { apply (reach_step (PostSettled o) st2); [|reflexivity].
    apply (reach_step SendClick st1); [|reflexivity].
    apply (reach_step (Change "milk") st0); [|reflexivity].
    apply reach_first. }
  destruct (proj2 (proj2 (proj2 (assistant_reminders_empty st3))) Hr)
    as (msgs & Hc & Hall).
  exists st3, msgs. split; [reflexivity|]. split; [exact Hc | exact Hall].
Defined.

(* ================================================================== *)
(** * The rest of [ChatBox]: the send button and the keyboard *)
(* ================================================================== *)

(** The flag that disables the send button. *)
Definition isDisabled (st : AppState) : bool :=
  negb (Str.truthy (Str.trim (question st))) || isLoading st.

Record KeyboardEvent : Type := mkKeyboardEvent {
  key : string;
  shiftKey : bool
}.

(** [handleKeyDown]: whether the default action of the key was prevented,
    and the state it leaves. *)
Definition handleKeyDown (e : KeyboardEvent) (st : AppState) : bool * AppState :=
  if String.eqb (key e) "Enter" && negb (shiftKey e)
  then (true, handleSendClick st)
  else (false, st).

(** The messages of a history written by the application: each has a
    content that is not empty; a user message has no reminders field and
    an assistant message has the empty list. *)
Definition well_formed (m : ChatMessage) : Prop :=
  content m ≠ ""
  ∧ match role m with
    | user => reminders m = None
    | ai => reminders m = Some []
    end.

Definition count_role (r : Role) (msgs : list ChatMessage) : nat :=
  length (List.filter (fun m => String.eqb (Role_string (role m)) (Role_string r)) msgs).

(** The awaited requests whose settling appends an assistant message. *)
Definition awaiting_reply (l : list Request) : nat :=
  length (List.filter (fun r => is_PostItems r || is_GetExpiry r) l).

Definition gets (l : list Request) : nat := length (List.filter is_GetItems l).

(* ================================================================== *)
(** * The send button and the keyboard: properties *)
(* ================================================================== *)

Lemma handleSendClick_accepts (st : AppState) :
  isDisabled st = false →
  handleSendClick st
  = send (PostItems (Str.trim (question st)))
      (setQuestion ""
         (handleUserMessage (Str.trim (question st)) (setIsLoading true st))).
Proof. unfold isDisabled, handleSendClick. by intros ->. Qed.

(** X1. The send button is disabled exactly when a click would be
    rejected. Disabled: the click leaves the state as it is. Enabled: the
    click appends the trimmed input as a user message without reminders,
    sets the loading flag, clears the input and issues one POST /items
    whose prompt is the trimmed input, which is not empty; the grocery
    list and the trigger stay as they are. *)
Theorem send_button_guard (st : AppState) :
  (isDisabled st = true → handleSendClick st = st)
  ∧ (isDisabled st = false →
     Str.trim (question st) ≠ ""
     ∧ conversation (handleSendClick st)
       = conversation st
         ++ [object_of (mkChatMessage user (Str.trim (question st)) None)]
     ∧ isLoading (handleSendClick st) = true
     ∧ question (handleSendClick st) = ""
     ∧ sent (handleSendClick st) = sent st ++ [PostItems (Str.trim (question st))]
     ∧ inflight (handleSendClick st)
       = inflight st ++ [PostItems (Str.trim (question st))]
     ∧ groceryList (handleSendClick st) = groceryList st
     ∧ triggerFetch (handleSendClick st) = triggerFetch st).
Proof.
  split.
  - unfold isDisabled, handleSendClick. by intros ->.
  - intros Hd. rewrite handleSendClick_accepts by done.
    unfold isDisabled in Hd. apply orb_false_elim in Hd as [Ht _].
    split. { intros E. rewrite E in Ht. discriminate. }
    unfold handleUserMessage.
    by destruct (setConversation_frame
                   (fun prev => prev ++ [object_of
                      (mkChatMessage user (Str.trim (question st)) None)])
                   (setIsLoading true st)) as [ls ->].
Qed.

Lemma send_button_guard_witness :
  let st := setQuestion "  2 litres of milk " (mount (mkStorage ∅ false 4096)) in
  sent (handleSendClick st) = [GetItems; PostItems "2 litres of milk"]
  ∧ isLoading (handleSendClick st) = true.
Proof.
  intros st.
  destruct (proj2 (send_button_guard st) eq_refl) as (_ & _ & Hl & _ & Hs & _).
  split; [exact Hs | exact Hl].
Defined.

(** X2. The keyboard. A key that is not Enter, or Enter with Shift held,
    leaves the state as it is and the default action alone. Enter without
    Shift prevents the default action and does what a click on the send
    button does; so while the button is disabled no key changes the
    state. *)
Theorem keyboard_submission (e : KeyboardEvent) (st : AppState) :
  (key e ≠ "Enter" ∨ shiftKey e = true → handleKeyDown e st = (false, st))
  ∧ (key e = "Enter" → shiftKey e = false →
     handleKeyDown e st = (true, handleSendClick st))
  ∧ (isDisabled st = true → (handleKeyDown e st).2 = st).
Proof.
  unfold handleKeyDown. repeat split.
  - intros [Hk | ->]; [|by rewrite andb_false_r].
    apply String.eqb_neq in Hk. by rewrite Hk.
  - intros -> ->. reflexivity.
  - intros Hd. destruct (_ && _); [|done]. simpl.
    unfold isDisabled in Hd. unfold handleSendClick. by rewrite Hd.
Qed.

Lemma keyboard_submission_witness :
  let st := setQuestion "eggs" (mount (mkStorage ∅ false 4096)) in
  handleKeyDown (mkKeyboardEvent "Enter" true) st = (false, st)
  ∧ handleKeyDown (mkKeyboardEvent "Enter" false) st = (true, handleSendClick st).
Proof.
  intros st. split.
  - apply (proj1 (keyboard_submission (mkKeyboardEvent "Enter" true) st)).
    right. reflexivity.
  - apply (proj1 (proj2 (keyboard_submission (mkKeyboardEvent "Enter" false) st)));
      reflexivity.
Defined.

Lemma take_request_snoc (p : Request → bool) (l : list Request) (r : Request) :
  p r = true →
  ∃ l', take_request p (l ++ [r]) = Some l' ∧ length l' = length l.
Proof.
  intros Hr. induction l as [|x l (l' & IH & Hlen)]; simpl.
  - rewrite Hr. by exists [].
  - destruct (p x).
    + exists (l ++ [r]). split; [done|]. rewrite length_app. simpl. lia.
    + rewrite IH. simpl. exists (x :: l'). split; [done|]. simpl. lia.
Qed.

Lemma handleSendClick_resumed_eq
    (o : Settled (Received ItemsResponse.t) Raw.Error) (st : AppState) :
  handleSendClick_resumed o st
  = setTriggerFetch true
      (setIsLoading false
         (match resumed_content o with
          | Some content =>
              let x := object_of (mkChatMessage ai content (Some [])) in
              set_localStorage
                (writeHistory (conversation st ++ [x]) (localStorage st))
                (set_conversation (conversation st ++ [x]) st)
          | None => st
          end)).
Proof.
  unfold handleSendClick_resumed.
  destruct (resumed_content o); [by rewrite handleAiMessage_eq | done].
Qed.

(** X3. One submission from the idle state to the idle state, on every
    outcome of the request. With the send button enabled, a click leaves
    its request awaited, and the settling of that request leaves: the
    conversation longer by the user message (the trimmed input) and then
    the assistant message with the content of the outcome, or by the user
    message alone when the [catch] block throws (a failed request whose
    response has a status other than 429 and a body that is null or
    undefined); the loading flag cleared, the input empty, the trigger
    set, and as requests issued the POST /items and, only when the trigger
    was not set before, one GET /items. On the outcomes whose body can be
    read this is the run of the two events. *)
Theorem submission_cycle
    (o : Settled (Received ItemsResponse.t) Raw.Error) (st : AppState) :
  isDisabled st = false →
  ∃ awaiting,
    settle is_PostItems (handleSendClick st) = Some awaiting
    ∧ let st' := handleSendClick_resumed o awaiting in
      conversation st'
      = conversation st
        ++ object_of (mkChatMessage user (Str.trim (question st)) None)
           :: match resumed_content o with
              | Some content => [object_of (mkChatMessage ai content (Some []))]
              | None => []
              end
      ∧ isLoading st' = false
      ∧ question st' = ""
      ∧ triggerFetch st' = true
      ∧ sent st'
        = sent st ++ [PostItems (Str.trim (question st))]
          ++ (if triggerFetch st then [] else [GetItems])
      ∧ groceryList st' = groceryList st
      ∧ (∀ typed, o = raw_outcome typed →
         run [SendClick; PostSettled typed] st = Some st').
Proof.
  intros Hd.
  assert (Hrun : ∀ awaiting typed,
            settle is_PostItems (handleSendClick st) = Some awaiting →
            run [SendClick; PostSettled typed] st
            = Some (handleSendClick_resumed (raw_outcome typed) awaiting)).
  { intros awaiting typed Hs.
    cbn -[handleSendClick handleSendClick_settled handleSendClick_resumed settle].
    rewrite Hs. cbn -[handleSendClick_settled handleSendClick_resumed].
    by rewrite handleSendClick_resumed_settled. }
  revert Hrun. rewrite handleSendClick_accepts by done.
  unfold handleUserMessage.
  destruct (setConversation_frame
              (fun prev => prev ++ [object_of
                 (mkChatMessage user (Str.trim (question st)) None)])
              (setIsLoading true st)) as [ls ->].
  destruct (take_request_snoc is_PostItems (inflight st)
              (PostItems (Str.trim (question st))) eq_refl) as (l' & Ht & _).
  unfold settle.
  cbn -[take_request handleSendClick_resumed run raw_outcome Str.trim object_of].
  rewrite Ht. cbn -[handleSendClick_resumed run raw_outcome Str.trim object_of].
  intros Hrun. eexists. split; [reflexivity|]. cbn zeta.
  split; [|split; [|split; [|split; [|split; [|split]]]]].
  7: { intros typed ->. by apply Hrun. }
  all: rewrite handleSendClick_resumed_eq; unfold setTriggerFetch;
    cbn [set_inflight set_localStorage set_conversation setIsLoading conversation
         isLoading groceryList triggerFetch question localStorage inflight sent];
    destruct (resumed_content o), (triggerFetch st); cbn;
    rewrite <- ?app_assoc, ?app_nil_r; done.
Qed.

Lemma submission_cycle_witness :
  let st := setQuestion "milk" (mount (mkStorage ∅ false 4096)) in
  let error :=
    Raw.mk (Some (Raw.mkResponse 500 "INTERNAL SERVER ERROR" ReceivedNull))
      true "Request failed with status code 500" in
  ∃ awaiting,
    settle is_PostItems (handleSendClick st) = Some awaiting
    ∧ let st' := handleSendClick_resumed (Rejected error) awaiting in
      conversation st' = [object_of (mkChatMessage user "milk" None)]
      ∧ isLoading st' = false
      ∧ sent st' = [GetItems; PostItems "milk"; GetItems].
Proof.
  intros st error.
  destruct (submission_cycle (Rejected error) st eq_refl)
    as (awaiting & Hs & Hc & Hl & _ & _ & Hsent & _).
  exists awaiting. split; [exact Hs|]. split; [exact Hc|]. split; [exact Hl | exact Hsent].
Defined.

(* ================================================================== *)
(** * Persistence after every append *)
(* ================================================================== *)

(** The write and the read of a history of chat messages, for use below. *)
Lemma persist_load_roundtrip_aux (msgs : list ChatMessage) (ls ls' : Storage) :
  setItem ls STORAGE_KEY
    (string_or_undefined (JSON_stringify (JArr (map object_of msgs)))) = Normal ls' →
  writeHistory (map object_of msgs) ls = ls'
  ∧ readHistory ls' = map object_of msgs.
Proof.
  intros Hset. split.
  - unfold writeHistory. by rewrite Hset.
  - rewrite JSON_stringify_array in Hset. unfold setItem in Hset.
    destruct (denied ls) eqn:Hd; [discriminate|].
    destruct (_ <=? _)%nat; [|discriminate].
    injection Hset as <-.
    apply readHistory_stored; [apply plain_conversation | reflexivity |].
    apply lookup_insert_eq.
Qed.

Lemma setConversation_append_stored (msgs : list ChatMessage) (m : ChatMessage)
    (st : AppState) (ls' : Storage) :
  conversation st = map object_of msgs →
  setItem (localStorage st) STORAGE_KEY
    (string_or_undefined
       (JSON_stringify (JArr (conversation st ++ [object_of m])))) = Normal ls' →
  let st' := setConversation (fun prev => prev ++ [object_of m]) st in
  conversation st' = conversation st ++ [object_of m]
  ∧ localStorage st' = ls'
  ∧ readHistory (localStorage st') = conversation st'.
Proof.
  intros Hc Hset st'. unfold st'. rewrite setConversation_append.
  cbn [conversation localStorage set_localStorage set_conversation].
  rewrite Hc in Hset |- *.
  replace (map object_of msgs ++ [object_of m]) with (map object_of (msgs ++ [m]))
    in * by (by rewrite map_app).
  destruct (persist_load_roundtrip_aux (msgs ++ [m]) (localStorage st) ls' Hset)
    as [-> ->].
  done.
Qed.

(** X4. The stored copy follows every append. In a state whose
    conversation is a list of chat messages, when the storage accepts the
    write that follows the append, [handleUserMessage] and
    [handleAiMessage] leave the storage that [setItem] returned, and
    reading the history back from it yields the conversation in memory,
    the new message included. *)
Theorem append_persisted (msgs : list ChatMessage) (st : AppState) :
  conversation st = map object_of msgs →
  (∀ message ls',
     setItem (localStorage st) STORAGE_KEY
       (string_or_undefined
          (JSON_stringify
             (JArr (conversation st
                    ++ [object_of (mkChatMessage user message None)])))) = Normal ls' →
     localStorage (handleUserMessage message st) = ls'
     ∧ readHistory (localStorage (handleUserMessage message st))
       = conversation (handleUserMessage message st)
     ∧ conversation (handleUserMessage message st)
       = conversation st ++ [object_of (mkChatMessage user message None)])
  ∧ (∀ message r ls',
       setItem (localStorage st) STORAGE_KEY
         (string_or_undefined
            (JSON_stringify
               (JArr (conversation st
                      ++ [object_of
                            (mkChatMessage ai message
                               (Some (match r with Some l => l | None => [] end)))]))))
       = Normal ls' →
       localStorage (handleAiMessage message r st) = ls'
       ∧ readHistory (localStorage (handleAiMessage message r st))
         = conversation (handleAiMessage message r st)
       ∧ conversation (handleAiMessage message r st)
         = conversation st
           ++ [object_of
                 (mkChatMessage ai message
                    (Some (match r with Some l => l | None => [] end)))]).
Proof.
  intros Hc. split.
  - intros message ls' Hset.
    destruct (setConversation_append_stored msgs _ st ls' Hc Hset) as (H1 & H2 & H3).
    done.
  - intros message r ls' Hset.
    destruct (setConversation_append_stored msgs _ st ls' Hc Hset) as (H1 & H2 & H3).
    done.
Qed.

Lemma append_persisted_witness :
  let st := mount (mkStorage ∅ false 4096) in
  readHistory (localStorage (handleUserMessage "milk" st))
  = conversation (handleUserMessage "milk" st).
Proof.
  intros st.
  refine (proj1 (proj2 (proj1 (append_persisted [] st eq_refl) "milk"
                          (mkStorage
                             (<[STORAGE_KEY :=
                                  ser (JArr [object_of (mkChatMessage user "milk" None)])]> ∅)
                             false 4096) _))).
  vm_compute. reflexivity.
Defined.

(** X5. A storage that rejects the write does not hold back the
    conversation. When [setItem] throws on the text of the new history
    (access denied, quota exceeded), [handleUserMessage] and
    [handleAiMessage] still append their message, and every other part of
    the state, the storage included, is as before. *)
Theorem append_survives_storage_failure (st : AppState) :
  (∀ message e,
     setItem (localStorage st) STORAGE_KEY
       (string_or_undefined
          (JSON_stringify
             (JArr (conversation st
                    ++ [object_of (mkChatMessage user message None)])))) = Throw e →
     handleUserMessage message st
     = set_conversation
         (conversation st ++ [object_of (mkChatMessage user message None)]) st)
  ∧ (∀ message r e,
       setItem (localStorage st) STORAGE_KEY
         (string_or_undefined
            (JSON_stringify
               (JArr (conversation st
                      ++ [object_of
                            (mkChatMessage ai message
                               (Some (match r with Some l => l | None => [] end)))]))))
       = Throw e →
       handleAiMessage message r st
       = set_conversation
           (conversation st
            ++ [object_of
                  (mkChatMessage ai message
                     (Some (match r with Some l => l | None => [] end)))]) st).
Proof.
  split.
  - intros message e Hset. rewrite handleUserMessage_eq. cbn zeta.
    unfold writeHistory. rewrite Hset. by destruct st.
  - intros message r e Hset. rewrite handleAiMessage_eq. cbn zeta.
    unfold writeHistory. rewrite Hset. by destruct st.
Qed.

Lemma append_survives_storage_failure_witness :
  let st := mount (mkStorage ∅ false 10) in
  conversation (handleAiMessage "Added milk" None st)
  = [object_of (mkChatMessage ai "Added milk" (Some []))]
  ∧ localStorage (handleAiMessage "Added milk" None st) = localStorage st.
Proof.
  intros st.
  rewrite (proj2 (append_survives_storage_failure st) "Added milk" None
             QuotaExceededError);
    [split; reflexivity | vm_compute; reflexivity].
Defined.

(* ================================================================== *)
(** * Hydration at mount *)
(* ================================================================== *)

(** X6. What the first render restores. Over a storage from which no
    history can be read, [mount] starts with the empty conversation and
    leaves the storage untouched. Over a readable storage that holds the
    text of a list of chat messages, it restores exactly that list and the
    storage is the same after it. In both cases the loading flag is
    clear, the grocery list is empty and GET /items is the one request
    issued. *)
Theorem mount_restores (ls : Storage) :
  (readHistory ls = [] → mount ls = mkApp [] false [] false "" ls [GetItems] [GetItems])
  ∧ (∀ msgs,
       denied ls = false →
       entries ls !! STORAGE_KEY = Some (ser (JArr (map object_of msgs))) →
       mount ls
       = mkApp (map object_of msgs) false [] false "" ls [GetItems] [GetItems]).
Proof.
  split.
  - intros H. unfold mount. by rewrite H.
  - intros msgs Hd He.
    assert (Hr : readHistory ls = map object_of msgs).
    { apply readHistory_stored; [apply plain_conversation | done | done]. }
    unfold mount. rewrite Hr.
    destruct (map object_of msgs) as [|x h] eqn:E; [done|].
    unfold setConversation, persist_effect. cbn. f_equal.
    unfold writeHistory, setItem. rewrite Hd, JSON_stringify_array.
    rewrite (insert_id (entries ls)) by done.
    destruct ls as [en d q]. simpl in *. subst d.
    by destruct (_ <=? _)%nat.
Qed.

Lemma mount_restores_witness :
  let msgs := [mkChatMessage user "milk" None; mkChatMessage ai "Added milk" (Some [])] in
  let ls := mkStorage (<[STORAGE_KEY := ser (JArr (map object_of msgs))]> ∅) false 4096 in
  conversation (mount ls) = map object_of msgs ∧ localStorage (mount ls) = ls.
Proof.
  intros msgs ls.
  rewrite (proj2 (mount_restores ls) msgs eq_refl); [split; reflexivity|].
  vm_compute. reflexivity.
Defined.

(* ================================================================== *)
(** * What the events leave alone *)
(* ================================================================== *)

(** Two storages that differ at most in the entry of the history. *)
Definition same_elsewhere (ls ls' : Storage) : Prop :=
  denied ls' = denied ls
  ∧ quota ls' = quota ls
  ∧ ∀ k, k ≠ STORAGE_KEY → entries ls' !! k = entries ls !! k.

Lemma same_elsewhere_refl (ls : Storage) : same_elsewhere ls ls.
Proof. by repeat split. Qed.

Lemma writeHistory_elsewhere (h : list JsValue) (ls : Storage) :
  same_elsewhere ls (writeHistory h ls).
Proof.
  destruct (writeHistory_cases h ls) as [-> | [Hd ->]].
  - apply same_elsewhere_refl.
  - repeat split; simpl; [done|]. intros k Hk. by apply lookup_insert_ne.
Qed.

Lemma setConversation_elsewhere (f : list JsValue → list JsValue) (st : AppState) :
  same_elsewhere (localStorage st) (localStorage (setConversation f st)).
Proof.
  unfold setConversation, persist_effect. simpl.
  destruct (f (conversation st)); simpl.
  - apply same_elsewhere_refl.
  - apply writeHistory_elsewhere.
Qed.

Ltac expose_setConversation :=
  match goal with
  | |- context [setConversation ?f ?s] =>
      let ls := fresh "ls" in
      destruct (setConversation_frame f s) as [ls ->]
  end.

(** X7. The application writes one key. Whatever the event, and at mount,
    the storage afterwards has the same access flag, the same quota and,
    under every key but the history key, the same entry as before. *)
Theorem storage_touched_at_one_key :
  (∀ ev st st', step ev st = Some st' →
     same_elsewhere (localStorage st) (localStorage st'))
  ∧ (∀ ls, same_elsewhere ls (localStorage (mount ls))).
Proof.
  split.
  - intros ev st st' Hstep. destruct ev; simpl in Hstep.
    + destruct (isLoading st); [done|]. injection Hstep as <-.
      apply same_elsewhere_refl.
    + injection Hstep as <-. unfold handleSendClick.
      destruct (negb _ || isLoading st); [apply same_elsewhere_refl|].
      apply (setConversation_elsewhere _ (setIsLoading true st)).
    + unfold settle in Hstep.
      destruct (take_request is_PostItems (inflight st)) as [l|]; [|done].
      injection Hstep as <-. unfold handleSendClick_settled.
      rewrite setTriggerFetch_localStorage.
      destruct o; apply (setConversation_elsewhere _ (set_inflight l st)).
    + injection Hstep as <-. apply (setConversation_elsewhere _ st).
    + unfold settle in Hstep.
      destruct (take_request is_GetExpiry (inflight st)) as [l|]; [|done].
      injection Hstep as <-.
      destruct o; apply (setConversation_elsewhere _ (set_inflight l st)).
    + unfold settle in Hstep.
      destruct (take_request is_GetItems (inflight st)) as [l|]; [|done].
      injection Hstep as <-. destruct o; apply same_elsewhere_refl.
  - intros ls. unfold mount. destruct (readHistory ls) as [|v h].
    + apply same_elsewhere_refl.
    + apply (setConversation_elsewhere _
               (fetch_effect (mkApp [] false [] false "" ls [] []))).
Qed.

(** X8. The conversation only grows. Every event leaves the conversation
    it found as a prefix of the one it leaves, and adds at most one
    message to it. *)
Theorem conversation_append_only (ev : Event) (st st' : AppState) :
  step ev st = Some st' →
  ∃ added, conversation st' = conversation st ++ added ∧ (length added ≤ 1)%nat.
Proof.
  intros Hstep. destruct ev; simpl in Hstep.
  - destruct (isLoading st); [done|]. injection Hstep as <-.
    exists []. rewrite app_nil_r. split; [done | simpl; lia].
  - injection Hstep as <-. unfold handleSendClick.
    destruct (negb _ || isLoading st).
    + exists []. rewrite app_nil_r. split; [done | simpl; lia].
    + unfold handleUserMessage. expose_setConversation. eexists [_]. split; [reflexivity | simpl; lia].
  - unfold settle in Hstep.
    destruct (take_request is_PostItems (inflight st)) as [l|]; [|done].
    injection Hstep as <-. rewrite handleSendClick_settled_conversation.
    eexists [_]. split; [reflexivity | simpl; lia].
  - injection Hstep as <-. unfold handleCheckExpiries, handleUserMessage.
    expose_setConversation. eexists [_]. split; [reflexivity | simpl; lia].
  - unfold settle in Hstep.
    destruct (take_request is_GetExpiry (inflight st)) as [l|]; [|done].
    injection Hstep as <-. rewrite handleCheckExpiries_settled_conversation.
    eexists [_]. split; [reflexivity | simpl; lia].
  - unfold settle in Hstep.
    destruct (take_request is_GetItems (inflight st)) as [l|]; [|done].
    injection Hstep as <-. exists []. rewrite app_nil_r. split; [by destruct o | simpl; lia].
Qed.

Lemma conversation_append_only_witness :
  let st := setQuestion "milk" (mount (mkStorage ∅ false 4096)) in
  ∃ added, conversation (handleSendClick st) = conversation st ++ added
           ∧ (length added ≤ 1)%nat.
Proof.
  intros st. apply (conversation_append_only SendClick st). reflexivity.
Defined.

Lemma storage_touched_at_one_key_witness :
  let st := setQuestion "milk"
              (mount (mkStorage (<["theme" := "dark"]> ∅) false 4096)) in
  same_elsewhere (localStorage st) (localStorage (handleSendClick st)).
Proof.
  intros st. apply (proj1 storage_touched_at_one_key SendClick st). reflexivity.
Defined.

(* ================================================================== *)
(** * The dialogue: who has said what *)
(* ================================================================== *)

(** Messages that are well formed, with at least as many user messages as
    assistant messages and [pending] replies still to come. *)
Definition history_ok (msgs : list ChatMessage) (pending : nat) : Prop :=
  Forall well_formed msgs
  ∧ (count_role ai msgs + pending ≤ count_role user msgs)%nat.

Definition stored_ok (ls : Storage) : Prop :=
  entries ls !! STORAGE_KEY = None
  ∨ ∃ msgs, entries ls !! STORAGE_KEY = Some (ser (JArr (map object_of msgs)))
            ∧ history_ok msgs 0.

Definition dialogue_invariant (st : AppState) : Prop :=
  (∃ msgs, conversation st = map object_of msgs
           ∧ history_ok msgs (awaiting_reply (inflight st)))
  ∧ stored_ok (localStorage st).

Lemma count_role_snoc (r : Role) (msgs : list ChatMessage) (m : ChatMessage) :
  count_role r (msgs ++ [m]) = (count_role r msgs + count_role r [m])%nat.
Proof. unfold count_role. by rewrite List.filter_app, length_app. Qed.

Lemma awaiting_reply_snoc (l : list Request) (r : Request) :
  awaiting_reply (l ++ [r]) = (awaiting_reply l + awaiting_reply [r])%nat.
Proof. unfold awaiting_reply. by rewrite List.filter_app, length_app. Qed.

Lemma awaiting_reply_post (l : list Request) (prompt : string) :
  awaiting_reply (l ++ [PostItems prompt]) = S (awaiting_reply l).
Proof. rewrite awaiting_reply_snoc. unfold awaiting_reply. simpl. lia. Qed.

Lemma awaiting_reply_expiry (l : list Request) :
  awaiting_reply (l ++ [GetExpiry]) = S (awaiting_reply l).
Proof. rewrite awaiting_reply_snoc. unfold awaiting_reply. simpl. lia. Qed.

Lemma awaiting_reply_items (l : list Request) :
  awaiting_reply (l ++ [GetItems]) = awaiting_reply l.
Proof. rewrite awaiting_reply_snoc. unfold awaiting_reply. simpl. lia. Qed.

Lemma take_request_count (p q : Request → bool) (b : bool) (l l' : list Request) :
  (∀ r, p r = true → q r = b) → take_request p l = Some l' →
  length (List.filter q l) = ((if b then 1 else 0) + length (List.filter q l'))%nat.
Proof.
  intros Hp. revert l'. induction l as [|r l IH]; intros l' H; [done|].
  simpl in H. destruct (p r) eqn:Hr.
  - injection H as <-. simpl. rewrite (Hp r Hr). by destruct b.
  - destruct (take_request p l) as [l''|]; [|done].
    injection H as <-. simpl. destruct (q r); simpl; rewrite (IH l'') by done;
      destruct b; lia.
Qed.

Lemma history_ok_weaken (msgs : list ChatMessage) (n k : nat) :
  history_ok msgs n → (k ≤ n)%nat → history_ok msgs k.
Proof. intros [Hw Hc] Hk. split; [done | lia]. Qed.

Lemma history_ok_user (msgs : list ChatMessage) (n : nat) (text : string) :
  history_ok msgs n → text ≠ "" →
  history_ok (msgs ++ [mkChatMessage user text None]) (S n).
Proof.
  intros [Hw Hc] Ht. split.
  - apply Forall_app. split; [done|]. by repeat constructor.
  - rewrite !count_role_snoc. unfold count_role at 2 4. simpl. lia.
Qed.

Lemma history_ok_ai (msgs : list ChatMessage) (n : nat) (text : string) :
  history_ok msgs (S n) → text ≠ "" →
  history_ok (msgs ++ [mkChatMessage ai text (Some [])]) n.
Proof.
  intros [Hw Hc] Ht. split.
  - apply Forall_app. split; [done|]. by repeat constructor.
  - rewrite !count_role_snoc. unfold count_role at 2 4. simpl. lia.
Qed.

Lemma settled_content_nonempty (o : Settled ItemsResponse.t AxiosError.t) :
  settled_content o ≠ "".
Proof.
  destruct o as [data|error]; simpl; [|done].
  unfold aiContent, string_or, Str.or.
  destruct (ItemsResponse.message data) as [[|a s]|]; done.
Qed.

Lemma expiryMessage_nonempty (expiryData : JsValue) : expiryMessage expiryData ≠ "".
Proof.
  pose proof (expiryMessage_cases expiryData) as H.
  destruct expiryData as [| |b|m e|s|[|v l]|props]; rewrite H; try done.
  by destruct (bullets (v :: l)).
Qed.

(** [setConversation], with what it leaves in the storage. *)
Lemma setConversation_frame_stored (f : list JsValue → list JsValue) (st : AppState) :
  ∃ ls, setConversation f st
        = mkApp (f (conversation st)) (isLoading st) (groceryList st)
            (triggerFetch st) (question st) ls (inflight st) (sent st)
        ∧ (ls = localStorage st
           ∨ ls = writeHistory (f (conversation st)) (localStorage st)).
Proof.
  unfold setConversation, persist_effect. destruct st as [c l g t q ls i s].
  simpl. destruct (f c); eexists; (split; [reflexivity|]); [by left | by right].
Qed.

Lemma stored_ok_after (msgs : list ChatMessage) (ls ls' : Storage) :
  stored_ok ls → history_ok msgs 0 →
  ls' = ls ∨ ls' = writeHistory (map object_of msgs) ls →
  stored_ok ls'.
Proof.
  intros Hls Hm [-> | ->]; [done|].
  destruct (writeHistory_cases (map object_of msgs) ls) as [-> | [_ ->]]; [done|].
  right. exists msgs. split; [|done]. simpl. apply lookup_insert_eq.
Qed.

(** Appending a message of the application keeps the invariant, for the
    requests awaited afterwards. *)
Lemma append_dialogue (m : ChatMessage) (msgs : list ChatMessage)
    (st : AppState) (pending : nat) :
  conversation st = map object_of msgs → stored_ok (localStorage st) →
  history_ok (msgs ++ [m]) pending →
  ∃ ls, setConversation (fun prev => prev ++ [object_of m]) st
        = mkApp (map object_of (msgs ++ [m])) (isLoading st) (groceryList st)
            (triggerFetch st) (question st) ls (inflight st) (sent st)
        ∧ stored_ok ls.
Proof.
  intros Hc Hls Hm.
  destruct (setConversation_frame_stored (fun prev => prev ++ [object_of m]) st)
    as (ls & -> & Hcase).
  exists ls. rewrite Hc in *.
  replace (map object_of msgs ++ [object_of m]) with (map object_of (msgs ++ [m]))
    in * by (by rewrite map_app).
  split; [done|].
  apply (stored_ok_after (msgs ++ [m]) (localStorage st)); [done| |done].
  apply (history_ok_weaken _ pending); [done | lia].
Qed.

Lemma readHistory_ok (ls : Storage) :
  stored_ok ls → ∃ msgs, readHistory ls = map object_of msgs ∧ history_ok msgs 0.
Proof.
  assert (Hnil : ∃ msgs, [] = map object_of msgs ∧ history_ok msgs 0).
  { exists []. repeat split; [constructor | simpl; lia]. }
  intros [Hnone | (msgs & Hsome & Hok)].
  - unfold readHistory, getItem. destruct (denied ls); [done|].
    simpl. by rewrite Hnone.
  - destruct (denied ls) eqn:Hd.
    + unfold readHistory, getItem. by rewrite Hd.
    + exists msgs. split; [|done].
      apply readHistory_stored; [apply plain_conversation | done | done].
Qed.

Lemma mount_dialogue (ls : Storage) : stored_ok ls → dialogue_invariant (mount ls).
Proof.
  intros Hls. destruct (readHistory_ok ls Hls) as (msgs & Hr & Hok).
  unfold mount. rewrite Hr. destruct (map object_of msgs) as [|x h] eqn:E.
  - split; [|done]. exists msgs. by rewrite E.
  - destruct (setConversation_frame_stored (fun _ => x :: h)
                (fetch_effect (mkApp [] false [] false "" ls [] [])))
      as (ls' & -> & Hcase).
    split.
    + exists msgs. by rewrite E.
    + simpl in Hcase. rewrite <- E in Hcase.
      by apply (stored_ok_after msgs ls).
Qed.

Lemma step_dialogue (ev : Event) (st st' : AppState) :
  dialogue_invariant st → step ev st = Some st' → dialogue_invariant st'.
Proof.
  intros [(msgs & Hc & Hok) Hls] Hstep. destruct ev; simpl in Hstep.
  - destruct (isLoading st); [done|]. injection Hstep as <-.
    split; [by exists msgs | done].
  - injection Hstep as <-. unfold handleSendClick.
    destruct (negb _ || isLoading st) eqn:Hg; [split; [by exists msgs | done]|].
    apply orb_false_elim in Hg as [Ht _]. apply negb_false_iff in Ht.
    assert (Hne : Str.trim (question st) ≠ "").
    { intros E. rewrite E in Ht. discriminate. }
    pose proof (history_ok_user msgs _ _ Hok Hne) as Hok'.
    destruct (append_dialogue _ msgs (setIsLoading true st) _ Hc Hls Hok')
      as (ls & Hset & Hls').
    unfold handleUserMessage. rewrite Hset. split; [|done].
    eexists. split; [reflexivity|]. simpl.
    by rewrite awaiting_reply_post.
  - unfold settle in Hstep.
    destruct (take_request is_PostItems (inflight st)) as [l|] eqn:Ht; [|done].
    injection Hstep as <-.
    apply (take_request_count _ (fun r => is_PostItems r || is_GetExpiry r) true)
      in Ht; [|by intros []].
    fold (awaiting_reply (inflight st)) in Ht. fold (awaiting_reply l) in Ht.
    rewrite Ht in Hok.
    pose proof (history_ok_ai msgs _ _ Hok (settled_content_nonempty o)) as Hok'.
    destruct (append_dialogue _ msgs (set_inflight l st) _ Hc Hls Hok')
      as (ls & Hset & Hls').
    assert (Hh : handleSendClick_settled o (set_inflight l st)
                 = setTriggerFetch true
                     (setIsLoading false
                        (handleAiMessage (settled_content o) None (set_inflight l st)))).
    { by destruct o. }
    rewrite Hh. unfold handleAiMessage. rewrite Hset.
    split.
    + rewrite setTriggerFetch_conversation, setTriggerFetch_inflight. simpl.
      eexists. split; [reflexivity|].
      destruct (triggerFetch st); simpl; rewrite ?app_nil_r; [done|].
      by rewrite awaiting_reply_items.
    + by rewrite setTriggerFetch_localStorage.
  - injection Hstep as <-. unfold handleCheckExpiries.
    assert (Hne : "Show me a list of all expiring items in the next 7 days." ≠ "")
      by done.
    pose proof (history_ok_user msgs _ _ Hok Hne) as Hok'.
    destruct (append_dialogue _ msgs st _ Hc Hls Hok') as (ls & Hset & Hls').
    unfold handleUserMessage. rewrite Hset. split; [|done].
    eexists. split; [reflexivity|]. simpl.
    by rewrite awaiting_reply_expiry.
  - unfold settle in Hstep.
    destruct (take_request is_GetExpiry (inflight st)) as [l|] eqn:Ht; [|done].
    injection Hstep as <-.
    apply (take_request_count _ (fun r => is_PostItems r || is_GetExpiry r) true)
      in Ht; [|by intros []].
    fold (awaiting_reply (inflight st)) in Ht. fold (awaiting_reply l) in Ht.
    rewrite Ht in Hok.
    assert (Hne : (match o with
                   | Fulfilled expiryData => expiryMessage expiryData
                   | Rejected _ => "Error fetching expiry items. Please try again."
                   end) ≠ "").
    { destruct o; [apply expiryMessage_nonempty | done]. }
    pose proof (history_ok_ai msgs _ _ Hok Hne) as Hok'.
    destruct (append_dialogue _ msgs (set_inflight l st) _ Hc Hls Hok')
      as (ls & Hset & Hls').
    assert (Hh : handleCheckExpiries_settled o (set_inflight l st)
                 = handleAiMessage
                     (match o with
                      | Fulfilled expiryData => expiryMessage expiryData
                      | Rejected _ => "Error fetching expiry items. Please try again."
                      end) None (set_inflight l st)).
    { by destruct o. }
    rewrite Hh. unfold handleAiMessage. rewrite Hset. split; [|done].
    eexists. split; [reflexivity | done].
  - unfold settle in Hstep.
    destruct (take_request is_GetItems (inflight st)) as [l|] eqn:Ht; [|done].
    injection Hstep as <-.
    apply (take_request_count _ (fun r => is_PostItems r || is_GetExpiry r) false)
      in Ht; [|by intros []].
    fold (awaiting_reply (inflight st)) in Ht. fold (awaiting_reply l) in Ht.
    rewrite Ht in Hok.
    split; [|by destruct o]. exists msgs. by destruct o.
Qed.

Lemma reachable_dialogue (st : AppState) : reachable st → dialogue_invariant st.
Proof.
  induction 1 as [d q|ev st st' _ IH Hstep|st _ IH|st _ IH].
  - apply mount_dialogue. by left.
  - by apply (step_dialogue ev st).
  - apply mount_dialogue, IH.
  - destruct IH as [Hc _]. split; [done|]. left. simpl. apply lookup_delete_eq.
Qed.

(** X9. The conversation holds well-formed messages only. In every state
    the application can reach, the conversation is a list of chat messages
    each of which has a content that is not empty; the user messages have
    no reminders field and the assistant messages have the empty list. *)
Theorem messages_well_formed (st : AppState) :
  reachable st →
  ∃ msgs, conversation st = map object_of msgs ∧ Forall well_formed msgs.
Proof.
  intros Hr. destruct (reachable_dialogue st Hr) as [(msgs & Hc & Hw & _) _].
  by exists msgs.
Qed.

(** X10. Every reply answers a request. In every state the application
    can reach, the assistant messages of the conversation together with
    the replies still awaited (chat submissions and expiry checks in
    flight) are no more than the user messages. *)
Theorem replies_follow_requests (st : AppState) :
  reachable st →
  ∃ msgs, conversation st = map object_of msgs
          ∧ (count_role ai msgs + awaiting_reply (inflight st)
             ≤ count_role user msgs)%nat.
Proof.
  intros Hr. destruct (reachable_dialogue st Hr) as [(msgs & Hc & _ & Hn) _].
  by exists msgs.
Qed.

(** A state reached by one answered submission, for the examples. *)
Definition sample_state : AppState :=
  handleSendClick_settled (Fulfilled (ItemsResponse.mk None (Some 2)))
    (set_inflight [GetItems]
       (handleSendClick (setQuestion "milk" (mount (mkStorage ∅ false 4096))))).

Lemma sample_state_reachable : reachable sample_state.
Proof.
  apply (reach_step (PostSettled (Fulfilled (ItemsResponse.mk None (Some 2))))
           (handleSendClick (setQuestion "milk" (mount (mkStorage ∅ false 4096)))));
    [|vm_compute; reflexivity].
  apply (reach_step SendClick (setQuestion "milk" (mount (mkStorage ∅ false 4096))));
    [|vm_compute; reflexivity].
  apply (reach_step (Change "milk") (mount (mkStorage ∅ false 4096))); [|vm_compute; reflexivity].
  apply reach_first.
Qed.

Lemma messages_well_formed_witness :
  ∃ msgs, conversation sample_state = map object_of msgs ∧ Forall well_formed msgs.
Proof. exact (messages_well_formed sample_state sample_state_reachable). Defined.

Lemma replies_follow_requests_witness :
  ∃ msgs, conversation sample_state = map object_of msgs
          ∧ (count_role ai msgs + awaiting_reply (inflight sample_state)
             ≤ count_role user msgs)%nat.
Proof. exact (replies_follow_requests sample_state sample_state_reachable). Defined.

(* ================================================================== *)
(** * The refetch trigger over a page session *)
(* ================================================================== *)

Lemma gets_snoc (l : list Request) (r : Request) :
  gets (l ++ [r]) = (gets l + gets [r])%nat.
Proof. unfold gets. by rewrite List.filter_app, length_app. Qed.

(** What an event does to the trigger and to the GET /items issued. *)
Lemma step_trigger (ev : Event) (st st' : AppState) :
  step ev st = Some st' →
  (triggerFetch st' = triggerFetch st ∧ gets (sent st') = gets (sent st))
  ∨ (triggerFetch st = false ∧ triggerFetch st' = true
     ∧ gets (sent st') = S (gets (sent st))).
Proof.
  intros Hstep. destruct ev; simpl in Hstep.
  - destruct (isLoading st); [done|]. injection Hstep as <-. by left.
  - injection Hstep as <-. left. unfold handleSendClick.
    destruct (negb _ || isLoading st); [done|].
    unfold handleUserMessage. expose_setConversation. simpl.
    split; [done|]. rewrite gets_snoc. unfold gets at 2. simpl. lia.
  - unfold settle in Hstep.
    destruct (take_request is_PostItems (inflight st)) as [l|]; [|done].
    injection Hstep as <-.
    destruct (handleSendClick_settled_sent o (set_inflight l st)) as [Hs Ht].
    rewrite Hs, Ht. simpl. destruct (triggerFetch st).
    + left. by rewrite app_nil_r.
    + right. repeat split. rewrite gets_snoc. unfold gets at 2. simpl. lia.
  - injection Hstep as <-. left. unfold handleCheckExpiries, handleUserMessage.
    expose_setConversation. simpl.
    split; [done|]. rewrite gets_snoc. unfold gets at 2. simpl. lia.
  - unfold settle in Hstep.
    destruct (take_request is_GetExpiry (inflight st)) as [l|]; [|done].
    injection Hstep as <-. left.
    unfold handleCheckExpiries_settled, handleAiMessage.
    destruct o; expose_setConversation; done.
  - unfold settle in Hstep.
    destruct (take_request is_GetItems (inflight st)) as [l|]; [|done].
    injection Hstep as <-. left. by destruct o.
Qed.

Lemma mount_trigger (ls : Storage) :
  triggerFetch (mount ls) = false ∧ sent (mount ls) = [GetItems].
Proof.
  unfold mount. destruct (readHistory ls); [done|].
  by expose_setConversation.
Qed.

(** X11. GET /items over a page session. In every state the application
    can reach, the requests issued since the page was loaded contain one
    GET /items while the trigger is not set and two once it is; and once
    the trigger is set, no event unsets it or issues another GET /items. *)
Theorem refetch_at_most_once (st : AppState) :
  (reachable st → gets (sent st) = if triggerFetch st then 2%nat else 1%nat)
  ∧ (∀ ev st', step ev st = Some st' → triggerFetch st = true →
       triggerFetch st' = true ∧ gets (sent st') = gets (sent st)).
Proof.
  split.
  - induction 1 as [d q|ev st st' _ IH Hstep|st _ IH|st _ IH].
    + by destruct (mount_trigger (mkStorage ∅ d q)) as [-> ->].
    + destruct (step_trigger ev st st' Hstep) as [[-> ->] | (Hf & -> & ->)];
        [done|]. rewrite Hf in IH. by rewrite IH.
    + by destruct (mount_trigger (localStorage st)) as [-> ->].
    + exact IH.
  - intros ev st' Hstep Ht.
    destruct (step_trigger ev st st' Hstep) as [[-> ->] | (Hf & _)]; [done|].
    congruence.
Qed.

Lemma refetch_at_most_once_witness :
  gets (sent sample_state) = 2%nat.
Proof. exact (proj1 (refetch_at_most_once sample_state) sample_state_reachable). Defined.

(* ================================================================== *)
(** * The expiry check as a whole *)
(* ================================================================== *)

(** X12. The expiry check, from the click to the reply. In any state, also
    while a chat submission is awaited, the click followed by the settling
    of its request is possible and appends the fixed prompt as a user
    message and then the reply as an assistant message; it issues one GET
    /expiry and leaves the loading flag, the input, the trigger and the
    grocery list as they were. The reply to a fulfilled request is
    [expiryMessage] of the body, which is the fixed error text when the
    writing of a listed element throws; the reply to a failed request is
    that same error text. *)
Theorem expiry_check_cycle (o : Settled JsValue unit) (st : AppState) :
  ∃ st', run [CheckExpiriesClick; ExpirySettled o] st = Some st'
         ∧ conversation st'
           = conversation st
             ++ [object_of
                   (mkChatMessage user
                      "Show me a list of all expiring items in the next 7 days." None);
                 object_of
                   (mkChatMessage ai
                      (match o with
                       | Fulfilled expiryData => expiryMessage expiryData
                       | Rejected _ => "Error fetching expiry items. Please try again."
                       end)
                      (Some []))]
         ∧ sent st' = sent st ++ [GetExpiry]
         ∧ isLoading st' = isLoading st
         ∧ question st' = question st
         ∧ triggerFetch st' = triggerFetch st
         ∧ groceryList st' = groceryList st.
Proof.
  cbn [run step]. unfold handleCheckExpiries, handleUserMessage.
  expose_setConversation.
  destruct (take_request_snoc is_GetExpiry (inflight st) GetExpiry eq_refl)
    as (l' & Ht & _).
  unfold settle.
  cbn -[take_request handleCheckExpiries_settled object_of].
  rewrite Ht. cbn -[handleCheckExpiries_settled object_of].
  eexists. split; [reflexivity|].
  rewrite handleCheckExpiries_settled_conversation.
  unfold handleCheckExpiries_settled, handleAiMessage.
  destruct o; expose_setConversation; cbn -[object_of];
    rewrite <- ?app_assoc; repeat split.
Qed.

(** X13. When the expiry check says that nothing is expiring. The reply
    is the fixed message that no items are expiring soon exactly when the
    data is neither an array nor an object: undefined, null, a boolean, a
    number or a string. No array, the empty one included, and no object
    gets that reply. *)
Theorem expiry_reassurance_only_without_data (expiryData : JsValue) :
  expiryMessage expiryData = "Great news! No items are expiring soon."
  ↔ isArray expiryData = false
    ∧ (typeof_object expiryData = false ∨ is_null expiryData = true).
Proof.
  pose proof (expiryMessage_cases expiryData) as H.
  destruct expiryData as [| |b|m e|s|[|v l]|props]; rewrite H;
    try destruct (bullets (v :: l)); simpl;
    split; try discriminate; intros; try (split; [done|]); try (by left);
    try (by right); try done.
  all: by destruct H0 as [? [?|?]].
Qed.

(* ================================================================== *)
(** * Clicking twice *)
(* ================================================================== *)

(** X14. A second click changes nothing. Whatever the state, clicking the
    send button twice in a row leaves the state that one click leaves: one
    user message, one POST /items. *)
Theorem double_click_sends_once (st : AppState) :
  handleSendClick (handleSendClick st) = handleSendClick st.
Proof.
  destruct (isDisabled st) eqn:Hd.
  - assert (E : handleSendClick st = st).
    { unfold isDisabled in Hd. unfold handleSendClick. by rewrite Hd. }
    by rewrite !E.
  - apply handleSendClick_rejects. right.
    rewrite handleSendClick_accepts by done. unfold handleUserMessage.
    by expose_setConversation.
Qed.

(* ================================================================== *)
(** * The stored history never runs ahead *)
(* ================================================================== *)

(** The conversation is a list of chat messages, and the storage holds no
    history or, readable, the text of the first [k] of them. *)
Definition stored_prefix (st : AppState) : Prop :=
  ∃ (msgs : list ChatMessage) (k : nat),
    conversation st = map object_of msgs
    ∧ (entries (localStorage st) !! STORAGE_KEY = None
       ∨ (denied (localStorage st) = false
          ∧ entries (localStorage st) !! STORAGE_KEY
            = Some (ser (JArr (map object_of (take k msgs)))))).

Lemma stored_prefix_append (m : ChatMessage) (st : AppState) :
  stored_prefix st →
  ∃ ls, setConversation (fun prev => prev ++ [object_of m]) st
        = mkApp (conversation st ++ [object_of m]) (isLoading st) (groceryList st)
            (triggerFetch st) (question st) ls (inflight st) (sent st)
        ∧ ∀ st', conversation st' = conversation st ++ [object_of m] →
                 localStorage st' = ls → stored_prefix st'.
Proof.
  intros (msgs & k & Hc & Hs).
  destruct (setConversation_frame_stored (fun prev => prev ++ [object_of m]) st)
    as (ls & -> & Hcase).
  exists ls. split; [done|]. intros st' Hc' Hls'.
  assert (Hm : conversation st' = map object_of (msgs ++ [m])).
  { rewrite Hc', Hc. by rewrite map_app. }
  destruct Hcase as [-> | ->].
  - destruct (decide (k ≤ length msgs)%nat) as [Hk | Hk].
    + exists (msgs ++ [m]), k. split; [done|]. rewrite Hls'.
      by rewrite take_app_le.
    + exists (msgs ++ [m]), (length msgs). split; [done|]. rewrite Hls'.
      rewrite take_app_le, firstn_all by lia.
      by rewrite take_ge in Hs by lia.
  - destruct (writeHistory_cases (conversation st ++ [object_of m]) (localStorage st))
      as [E | [Hd E]]; rewrite E in Hls'.
    + destruct (decide (k ≤ length msgs)%nat) as [Hk | Hk].
      * exists (msgs ++ [m]), k. split; [done|]. rewrite Hls'.
        by rewrite take_app_le.
      * exists (msgs ++ [m]), (length msgs). split; [done|]. rewrite Hls'.
        rewrite take_app_le, firstn_all by lia.
        by rewrite take_ge in Hs by lia.
    + exists (msgs ++ [m]), (length (msgs ++ [m])). split; [done|].
      right. rewrite Hls'. simpl. split; [done|].
      rewrite lookup_insert_eq, firstn_all. by rewrite Hc, map_app.
Qed.

Lemma readHistory_stored_prefix (ls : Storage) (msgs : list ChatMessage) (k : nat) :
  entries ls !! STORAGE_KEY = None
  ∨ (denied ls = false
     ∧ entries ls !! STORAGE_KEY = Some (ser (JArr (map object_of (take k msgs))))) →
  readHistory ls = []
  ∨ (readHistory ls = map object_of (take k msgs) ∧ denied ls = false
     ∧ entries ls !! STORAGE_KEY = Some (ser (JArr (map object_of (take k msgs))))).
Proof.
  intros [Hnone | [Hd Hsome]].
  - left. unfold readHistory, getItem. destruct (denied ls); [done|].
    simpl. by rewrite Hnone.
  - right. split; [|done].
    apply readHistory_stored; [apply plain_conversation | done | done].
Qed.

Lemma mount_stored_prefix (ls : Storage) (msgs : list ChatMessage) (k : nat) :
  entries ls !! STORAGE_KEY = None
  ∨ (denied ls = false
     ∧ entries ls !! STORAGE_KEY = Some (ser (JArr (map object_of (take k msgs))))) →
  stored_prefix (mount ls).
Proof.
  intros Hs. destruct (readHistory_stored_prefix ls msgs k Hs) as [Hr | (Hr & Hd & He)].
  - unfold mount. rewrite Hr. destruct Hs as [Hs | [Hd Hs]].
    + exists [], 0%nat. split; [done | by left].
    + rewrite (readHistory_stored ls (map object_of (take k msgs))) in Hr;
        [|apply plain_conversation|done|done].
      rewrite Hr in Hs.
      exists [], 0%nat. split; [done|]. right. split; [exact Hd | exact Hs].
  - unfold mount. rewrite Hr.
    destruct (map object_of (take k msgs)) as [|x h] eqn:E.
    + exists [], 0%nat. split; [done|]. right. split; [exact Hd | exact He].
    + destruct (setConversation_frame_stored (fun _ => x :: h)
                  (fetch_effect (mkApp [] false [] false "" ls [] [])))
        as (ls' & -> & Hcase).
      exists (take k msgs), (length (take k msgs)). split; [done|].
      rewrite firstn_all, E. simpl in Hcase |- *.
      destruct Hcase as [-> | ->]; [by right|].
      destruct (writeHistory_cases (x :: h) ls) as [-> | [_ ->]]; [by right|].
      right. simpl. split; [done|]. apply lookup_insert_eq.
Qed.

Lemma step_stored_prefix (ev : Event) (st st' : AppState) :
  stored_prefix st → step ev st = Some st' → stored_prefix st'.
Proof.
  intros Inv Hstep. destruct ev; simpl in Hstep.
  - destruct (isLoading st); [done|]. by injection Hstep as <-.
  - injection Hstep as <-. unfold handleSendClick.
    destruct (negb _ || isLoading st); [done|].
    destruct (stored_prefix_append
                (mkChatMessage user (Str.trim (question st)) None)
                (setIsLoading true st) Inv) as (ls & Hset & Hnext).
    unfold handleUserMessage. rewrite Hset. by apply Hnext.
  - unfold settle in Hstep.
    destruct (take_request is_PostItems (inflight st)) as [l|]; [|done].
    injection Hstep as <-.
    destruct (stored_prefix_append
                (mkChatMessage ai (settled_content o) (Some []))
                (set_inflight l st) Inv) as (ls & Hset & Hnext).
    apply Hnext.
    + apply handleSendClick_settled_conversation.
    + assert (Hh : handleSendClick_settled o (set_inflight l st)
                   = setTriggerFetch true
                       (setIsLoading false
                          (handleAiMessage (settled_content o) None
                             (set_inflight l st)))) by by destruct o.
      rewrite Hh, setTriggerFetch_localStorage. unfold handleAiMessage.
      by rewrite Hset.
  - injection Hstep as <-. unfold handleCheckExpiries.
    destruct (stored_prefix_append
                (mkChatMessage user
                   "Show me a list of all expiring items in the next 7 days." None)
                st Inv) as (ls & Hset & Hnext).
    unfold handleUserMessage. rewrite Hset. by apply Hnext.
  - unfold settle in Hstep.
    destruct (take_request is_GetExpiry (inflight st)) as [l|]; [|done].
    injection Hstep as <-. unfold handleCheckExpiries_settled, handleAiMessage.
    destruct o as [d|e];
      match goal with
      | |- context [mkChatMessage ai ?c _] =>
          destruct (stored_prefix_append (mkChatMessage ai c (Some []))
                      (set_inflight l st) Inv) as (ls & Hset & Hnext)
      end; rewrite Hset; by apply Hnext.
  - unfold settle in Hstep.
    destruct (take_request is_GetItems (inflight st)) as [l|]; [|done].
    injection Hstep as <-. by destruct o.
Qed.

Lemma reachable_stored_prefix (st : AppState) : reachable st → stored_prefix st.
Proof.
  induction 1 as [d q|ev st st' _ IH Hstep|st _ IH|st _ IH].
  - apply (mount_stored_prefix _ [] 0). by left.
  - by apply (step_stored_prefix ev st).
  - destruct IH as (msgs & k & _ & Hs). by apply (mount_stored_prefix _ msgs k).
  - destruct IH as (msgs & k & Hc & _). exists msgs, k. split; [done|].
    left. simpl. apply lookup_delete_eq.
Qed.

(** X15. The stored history never runs ahead of the conversation. In
    every state the application can reach, what [readHistory] reads from
    the storage is a prefix of the conversation in memory: a reload shows
    the conversation up to the last write the storage accepted, and
    nothing else. *)
Theorem stored_history_is_prefix (st : AppState) :
  reachable st →
  ∃ rest, conversation st = readHistory (localStorage st) ++ rest.
Proof.
  intros Hr. destruct (reachable_stored_prefix st Hr) as (msgs & k & Hc & Hs).
  destruct (readHistory_stored_prefix _ msgs k Hs) as [-> | (-> & _)].
  - by exists (conversation st).
  - exists (map object_of (drop k msgs)).
    by rewrite Hc, <- map_app, take_drop.
Qed.

Lemma stored_history_is_prefix_witness :
  ∃ rest, conversation sample_state = readHistory (localStorage sample_state) ++ rest.
Proof. exact (stored_history_is_prefix sample_state sample_state_reachable). Defined.

(* ================================================================== *)
(** * The fuel of the parser *)
(* ================================================================== *)

Lemma skip_ws_length (s : string) : (String.length (skip_ws s) ≤ String.length s)%nat.
Proof.
  induction s as [|a s IH]; simpl; [lia|]. destruct (json_ws a); simpl; lia.
Qed.

Lemma expect_length (lit s r : string) :
  expect lit s = Some r → (String.length r ≤ String.length s)%nat.
Proof.
  revert s. induction lit as [|a lit IH]; intros s H; simpl in H.
  - injection H as <-. lia.
  - destruct s as [|b s]; [done|]. destruct (Ascii.eqb a b); [|done].
    apply IH in H. simpl. lia.
Qed.

Lemma parse_chars_length (n : nat) :
  ∀ s items r, (String.length s ≤ n)%nat → parse_chars s = Some (items, r) →
    (String.length r < String.length s)%nat.
Proof.
  induction n as [|n IH]; intros s items r Hn H.
  - destruct s; [done | simpl in Hn; lia].
  - destruct s as [|a s]; [done|]. cbn [parse_chars] in H. simpl in Hn.
    destruct (Ascii.eqb a Str.DQ). { injection H as _ <-. simpl. lia. }
    destruct (Ascii.eqb a Str.BS).
    + destruct s as [|x s]; [done|]. simpl in Hn.
      destruct (simple_escape x).
      * destruct (parse_chars s) as [[items' r']|] eqn:E; [|done].
        injection H as _ <-. apply IH in E; [|lia]. simpl. lia.
      * destruct (Ascii.eqb x "u"); [|done].
        destruct s as [|h1 [|h2 [|h3 [|h4 s]]]]; try done.
        destruct (hex4_val h1 h2 h3 h4); [|done]. simpl in Hn.
        cbn [mbind option_bind] in H.
        destruct (parse_chars s) as [[items' r']|] eqn:E; [|done].
        injection H as _ <-. apply IH in E; [|lia]. simpl. lia.
    + destruct (Str.code a <? 32)%N; [done|].
      destruct (parse_chars s) as [[items' r']|] eqn:E; [|done].
      injection H as _ <-. apply IH in E; [|lia]. simpl. lia.
Qed.

Lemma parse_string_length (s str r : string) :
  parse_string s = Some (str, r) → (String.length r < String.length s)%nat.
Proof.
  unfold parse_string. destruct (parse_chars s) as [[items r']|] eqn:E; [|done].
  intros H. injection H as _ <-. by apply (parse_chars_length (String.length s)) in E.
Qed.

Lemma span_digits_length (s : string) (ds : list Z) (r : string) :
  span_digits s = (ds, r) →
  (String.length r + length ds = String.length s)%nat.
Proof.
  revert ds r. induction s as [|a s IH]; intros ds r H; simpl in H.
  - by injection H as <- <-.
  - destruct (is_digit a).
    + destruct (span_digits s) as [ds' r']. injection H as <- <-.
      specialize (IH _ _ eq_refl). simpl. lia.
    + injection H as <- <-. simpl. lia.
Qed.

Lemma parse_number_length (s : string) (v : JsValue) (r : string) :
  parse_number s = Some (v, r) → (String.length r < String.length s)%nat.
Proof.
  unfold parse_number. intros H.
  match type of H with
  | (match ?p with pair _ _ => _ end) = _ => set (p1 := p) in H
  end.
  assert (H1 : (String.length p1.2 ≤ String.length s)%nat).
  { subst p1. destruct s as [|a r0]; [simpl; lia|].
    destruct a as [[] [] [] [] [] [] [] []]; simpl; lia. }
  clearbody p1. destruct p1 as [neg s1]. simpl in H1.
  destruct (span_digits s1) as [ip s2] eqn:E1.
  apply span_digits_length in E1.
  assert (H2 : ip ≠ [] → (String.length s2 < String.length s)%nat).
  { intros Hne. destruct ip; [done|]. simpl in E1. lia. }
  assert (H3 : ∀ (m2 : option (list Z * string)) k,
             (∀ fp s3, m2 = Some (fp, s3) →
                (String.length s3 ≤ String.length s2)%nat) →
             (∀ fp s3 x s4, k fp s3 = Some (x, s4) →
                (String.length s4 ≤ String.length s3)%nat) →
             ip ≠ [] →
             ('(fp, s3) ← m2; '(x, s4) ← k fp s3;
              Some (normal_number (if neg then - digits_value (ip ++ fp)
                                   else digits_value (ip ++ fp))
                      ((x : Z) - Z.of_nat (length fp)) (length (ip ++ fp)), s4))
             = Some (v, r) →
             (String.length r < String.length s)%nat).
  { intros m2 k Hm2 Hk Hne Hb.
    destruct m2 as [[fp s3]|]; [|done]. simpl in Hb.
    destruct (k fp s3) as [[x s4]|] eqn:Ek; [|done]. simpl in Hb.
    injection Hb as _ <-.
    specialize (Hm2 _ _ eq_refl). specialize (Hk _ _ _ _ Ek).
    specialize (H2 Hne). lia. }
  assert (Hfrac : ∀ fp s3,
            match s2 with
            | String "."%char r0 =>
                let '(ds, rest) := span_digits r0 in
                match ds with
                | [] => None
                | _ => Some (ds, rest)
                end
            | _ => Some ([], s2)
            end = Some (fp, s3) →
            (String.length s3 ≤ String.length s2)%nat).
  { intros fp s3. destruct s2 as [|a r0]; [intros [= _ <-]; lia|].
    destruct a as [[] [] [] [] [] [] [] []];
      try (intros [= _ <-]; lia).
    destruct (span_digits r0) as [ds rest] eqn:E. apply span_digits_length in E.
    destruct ds; [done|]. intros [= _ <-]. simpl in *. lia. }
  assert (Hexp : ∀ (fp : list Z) s3 x s4,
            match s3 with
            | String c r0 =>
                if Ascii.eqb c "e"%char || Ascii.eqb c "E"%char then
                  let '(sgn, r1) :=
                    match r0 with
                    | String "-"%char t => (-1, t)
                    | String "+"%char t => (1, t)
                    | _ => (1, r0)
                    end in
                  let '(ds, rest) := span_digits r1 in
                  match ds with
                  | [] => None
                  | _ => Some (sgn * digits_value ds, rest)
                  end
                else Some (0, s3)
            | EmptyString => Some (0, s3)
            end = Some (x, s4) →
            (String.length s4 ≤ String.length s3)%nat).
  { intros _ s3 x s4. destruct s3 as [|c r0]; [intros [= _ <-]; lia|].
    destruct (_ || _); [|intros [= _ <-]; lia].
    match goal with
    | |- (match ?p with pair _ _ => _ end) = _ → _ => set (p3 := p)
    end.
    assert (Hp : (String.length p3.2 ≤ String.length r0)%nat).
    { subst p3. destruct r0 as [|a t]; [simpl; lia|].
      destruct a as [[] [] [] [] [] [] [] []]; simpl; lia. }
    clearbody p3. destruct p3 as [sgn r1]. simpl in Hp.
    destruct (span_digits r1) as [ds rest] eqn:E. apply span_digits_length in E.
    destruct ds; [done|]. intros [= _ <-]. simpl in *. lia. }
  destruct ip as [|d ip']; [done|].
  destruct d; destruct ip'; try done;
    (eapply H3; [apply Hfrac | apply Hexp | done | exact H]).
Qed.

(** A parse that succeeds consumes text, and succeeds with the same
    result on any fuel that is at least the length of the text consumed. *)
Lemma parse_fuel (f : nat) :
  (∀ s v r, parse_value f s = Some (v, r) →
     (String.length r < String.length s)%nat
     ∧ ∀ f', (String.length s - String.length r ≤ f')%nat →
             parse_value f' s = Some (v, r))
  ∧ (∀ s acc v r, parse_elements f s acc = Some (v, r) →
       (String.length r < String.length s)%nat
       ∧ ∀ f', (String.length s - String.length r ≤ f')%nat →
               parse_elements f' s acc = Some (v, r))
  ∧ (∀ s acc v r, parse_members f s acc = Some (v, r) →
       (String.length r < String.length s)%nat
       ∧ ∀ f', (String.length s - String.length r ≤ f')%nat →
               parse_members f' s acc = Some (v, r)).
Proof.
  induction f as [|f (IHv & IHe & IHm)]; [by repeat split|].
  split; [|split].
  - intros s v r. cbn [parse_value]. pose proof (skip_ws_length s) as Hs.
    destruct (skip_ws s) as [|a r0] eqn:Es; [done|]. simpl in Hs.
    destruct (Ascii.eqb a "n") eqn:En.
    { destruct (expect "ull" r0) as [x|] eqn:E; [|done]. intros [= <- <-].
      pose proof (expect_length _ _ _ E). split; [lia|].
      intros [|f'] Hf'; [lia|]. cbn [parse_value]. by rewrite Es, En, E. }
    destruct (Ascii.eqb a "t") eqn:Et.
    { destruct (expect "rue" r0) as [x|] eqn:E; [|done]. intros [= <- <-].
      pose proof (expect_length _ _ _ E). split; [lia|].
      intros [|f'] Hf'; [lia|]. cbn [parse_value]. by rewrite Es, En, Et, E. }
    destruct (Ascii.eqb a "f") eqn:Ef.
    { destruct (expect "alse" r0) as [x|] eqn:E; [|done]. intros [= <- <-].
      pose proof (expect_length _ _ _ E). split; [lia|].
      intros [|f'] Hf'; [lia|]. cbn [parse_value]. by rewrite Es, En, Et, Ef, E. }
    destruct (Ascii.eqb a Str.DQ) eqn:Eq.
    { destruct (parse_string r0) as [[x y]|] eqn:E; [|done]. intros [= <- <-].
      pose proof (parse_string_length _ _ _ E). split; [lia|].
      intros [|f'] Hf'; [lia|]. cbn [parse_value].
      by rewrite Es, En, Et, Ef, Eq, E. }
    destruct (Ascii.eqb a "[") eqn:Ea.
    { pose proof (skip_ws_length r0) as Hr.
      assert (Hrec : parse_elements f r0 [] = Some (v, r) →
                (String.length r < String.length (String a r0))%nat
                ∧ ∀ f', (String.length s - String.length r ≤ S f')%nat →
                        parse_elements f' r0 [] = Some (v, r)).
      { intros H. apply IHe in H as [H1 H2]. split; [simpl; lia|].
        intros f' Hf'. apply H2. lia. }
      destruct (skip_ws r0) as [|c rest] eqn:Er;
        [|destruct (Ascii.eqb c "]") eqn:Ec].
      - intros H. apply Hrec in H as [H1 H2]. simpl in H1. split; [lia|].
        intros [|f'] Hf'; [lia|]. cbn [parse_value].
        rewrite Es, En, Et, Ef, Eq, Ea, Er. by apply H2.
      - intros [= <- <-]. simpl in Hr. split; [lia|].
        intros [|f'] Hf'; [lia|]. cbn [parse_value].
        by rewrite Es, En, Et, Ef, Eq, Ea, Er, Ec.
      - intros H. apply Hrec in H as [H1 H2]. simpl in H1. split; [lia|].
        intros [|f'] Hf'; [lia|]. cbn [parse_value].
        rewrite Es, En, Et, Ef, Eq, Ea, Er, Ec. by apply H2. }
    destruct (Ascii.eqb a "{") eqn:Eo.
    { pose proof (skip_ws_length r0) as Hr.
      assert (Hrec : parse_members f r0 [] = Some (v, r) →
                (String.length r < String.length (String a r0))%nat
                ∧ ∀ f', (String.length s - String.length r ≤ S f')%nat →
                        parse_members f' r0 [] = Some (v, r)).
      { intros H. apply IHm in H as [H1 H2]. split; [simpl; lia|].
        intros f' Hf'. apply H2. lia. }
      destruct (skip_ws r0) as [|c rest] eqn:Er;
        [|destruct (Ascii.eqb c "}") eqn:Ec].
      - intros H. apply Hrec in H as [H1 H2]. simpl in H1. split; [lia|].
        intros [|f'] Hf'; [lia|]. cbn [parse_value].
        rewrite Es, En, Et, Ef, Eq, Ea, Eo, Er. by apply H2.
      - intros [= <- <-]. simpl in Hr. split; [lia|].
        intros [|f'] Hf'; [lia|]. cbn [parse_value].
        by rewrite Es, En, Et, Ef, Eq, Ea, Eo, Er, Ec.
      - intros H. apply Hrec in H as [H1 H2]. simpl in H1. split; [lia|].
        intros [|f'] Hf'; [lia|]. cbn [parse_value].
        rewrite Es, En, Et, Ef, Eq, Ea, Eo, Er, Ec. by apply H2. }
    intros H. pose proof (parse_number_length _ _ _ H) as Hn. simpl in Hn.
    split; [lia|].
    intros [|f'] Hf'; [lia|]. cbn [parse_value].
    by rewrite Es, En, Et, Ef, Eq, Ea, Eo.
  - intros s acc v r. cbn [parse_elements].
    destruct (parse_value f s) as [[v1 r1]|] eqn:Ev; [|done].
    apply IHv in Ev as [Hv1 Hv2]. cbn [mbind option_bind].
    pose proof (skip_ws_length r1) as Hr.
    destruct (skip_ws r1) as [|c rest] eqn:Er; [done|]. simpl in Hr.
    destruct (Ascii.eqb c ",") eqn:Ec.
    { intros H. apply IHe in H as [H1 H2]. split; [lia|].
      intros [|f'] Hf'; [lia|]. cbn [parse_elements].
      rewrite Hv2 by lia. cbn [mbind option_bind]. rewrite Er, Ec.
      apply H2. lia. }
    destruct (Ascii.eqb c "]") eqn:Ed; [|done].
    intros [= <- <-]. split; [lia|].
    intros [|f'] Hf'; [lia|]. cbn [parse_elements].
    rewrite Hv2 by lia. cbn [mbind option_bind]. by rewrite Er, Ec, Ed.
  - intros s acc v r. cbn [parse_members]. pose proof (skip_ws_length s) as Hs.
    destruct (skip_ws s) as [|q r0] eqn:Es; [done|]. simpl in Hs.
    destruct (Ascii.eqb q Str.DQ) eqn:Eq; [|done].
    destruct (parse_string r0) as [[k r1]|] eqn:Ek; [|done].
    pose proof (parse_string_length _ _ _ Ek) as Hk. cbn [mbind option_bind].
    pose proof (skip_ws_length r1) as Hr1.
    destruct (skip_ws r1) as [|c r2] eqn:Er1; [done|]. simpl in Hr1.
    destruct (Ascii.eqb c ":") eqn:Ec; [|done].
    destruct (parse_value f r2) as [[v1 r3]|] eqn:Ev; [|done].
    apply IHv in Ev as [Hv1 Hv2]. cbn [mbind option_bind].
    pose proof (skip_ws_length r3) as Hr3.
    destruct (skip_ws r3) as [|d rest] eqn:Er3; [done|]. simpl in Hr3.
    destruct (Ascii.eqb d ",") eqn:Ed.
    { intros H. apply IHm in H as [H1 H2]. split; [lia|].
      intros [|f'] Hf'; [lia|]. cbn [parse_members].
      rewrite Es, Eq, Ek. cbn [mbind option_bind]. rewrite Er1, Ec.
      rewrite Hv2 by lia. cbn [mbind option_bind]. rewrite Er3, Ed.
      apply H2. lia. }
    destruct (Ascii.eqb d "}") eqn:Ee; [|done].
    intros [= <- <-]. split; [lia|].
    intros [|f'] Hf'; [lia|]. cbn [parse_members].
    rewrite Es, Eq, Ek. cbn [mbind option_bind]. rewrite Er1, Ec.
    rewrite Hv2 by lia. cbn [mbind option_bind]. by rewrite Er3, Ed, Ee.
Qed.

(** The fuel [JSON_parse] gives is enough: a text that any amount of fuel
    parses is parsed, to the same value, by [JSON_parse]; so a syntax
    error of [JSON_parse] is an error of the text on every fuel. *)
Lemma JSON_parse_fuel (fuel : nat) (text : string) (v : JsValue) (rest : string) :
  parse_value fuel text = Some (v, rest) →
  parse_value (S (String.length text)) text = Some (v, rest).
Proof.
  intros H. destruct (parse_fuel fuel) as (Hv & _ & _).
  apply Hv in H as [_ H]. apply H. lia.
Qed.
